(** * Bounded-time numeric pipeline (task.go)

    A shallow embedding of the producer / worker pool / fan-in collector
    program of [task.go] as a labelled transition system, and the proofs of
    its accounting, shutdown and reporting properties.

    Every goroutine of the program is a small machine with a program
    counter placed at each statement that can block or be observed; one
    transition of the system is one such statement of one goroutine (or the
    meeting of a sender and a receiver on an unbuffered channel), so that a
    run of the system is an interleaving of the goroutines.  Time is a
    clock in nanoseconds that advances by [EvTick]; [time.Sleep] waits for
    at least its duration and the context's Done channel is closed when the
    clock reaches the deadline.

    [int64] values are integers of [Z] wrapped to 64 bits. *)

From Stdlib Require Import ZArith Lia String Ascii DecimalString.
From stdpp Require Import base tactics option list numbers sorting.

Local Open Scope Z_scope.

(** ** 64-bit signed integers *)

Definition wrap64 (z : Z) : Z := (z + 2 ^ 63) mod 2 ^ 64 - 2 ^ 63.

Definition int64_range (z : Z) : Prop := - 2 ^ 63 <= z < 2 ^ 63.

(** ** Durations, in nanoseconds as [time.Duration] *)

Definition Millisecond : Z := 1000000.
Definition Second : Z := 1000 * Millisecond.

(** ** Configuration: the constants of [main] *)

Record config := Config {
  NumOut : nat;      (* const NumOut *)
  timeout : Z;       (* context.WithTimeout(..., timeout) *)
  pause : Z          (* time.Sleep(pause) in Worker *)
}.

(** The constants as [task.go] has them. *)
Definition task_go : config :=
  {| NumOut := 5; timeout := 1 * Second; pause := Millisecond |}.

(** ** Channels and goroutines *)

Inductive chan := ChIn | ChOuts (i : nat) | ChOut.

Inductive task := TGen | TWorker (i : nat) | TCollector (i : nat) | TBarrier | TMain.

#[global] Instance chan_eq_dec : EqDecision chan.
Proof. solve_decision. Defined.

#[global] Instance task_eq_dec : EqDecision task.
Proof. solve_decision. Defined.

(** A channel value: its buffer and whether it was closed.  The capacity
    is fixed by the [make] that created it, see [chan_cap]. *)
Record channel := Channel { buf : list Z; closed : bool }.

(** [make(chan int64)] for chIn and outs[i], [make(chan int64, NumOut)] for
    chOut. *)
Definition chan_cap (cfg : config) (c : chan) : nat :=
  match c with
  | ChIn => 0
  | ChOuts _ => 0
  | ChOut => NumOut cfg
  end.

Definition make_chan : channel := {| buf := []; closed := false |}.

(** The two tallies updated by the generator's callback. *)
Inductive tally := InputSum | InputCount.

(** ** Events: one per transition *)

Inductive event :=
| EvTick (d : Z)                                (* the clock advances by d ns *)
| EvCtxDone                                     (* select: case <-ctx.Done() *)
| EvDefault                                     (* select: default *)
| EvSync (c : chan) (snd rcv : task) (v : Z)    (* unbuffered send meets receive *)
| EvSend (c : chan) (t : task) (v : Z)          (* send into the buffer (or on a closed channel) *)
| EvRecv (c : chan) (t : task) (v : Z)          (* receive from the buffer *)
| EvRecvClosed (c : chan) (t : task)            (* receive: closed and drained, ok = false *)
| EvClose (c : chan) (t : task)                 (* close(c) *)
| EvCall (v : Z)                                (* fn(current) is entered *)
| EvAtomicAdd (x : tally) (d : Z)               (* atomic.AddInt64 *)
| EvIncr (t : task)                             (* current++ / amounts[i]++ *)
| EvSleep (i : nat)                             (* time.Sleep is entered *)
| EvWake (i : nat)                              (* time.Sleep returns *)
| EvWgDone (i : nat)                            (* wg.Done() *)
| EvWgWait                                      (* wg.Wait() returns *)
| EvPrint                                       (* the three fmt.Println *)
| EvValidate.                                   (* the final checks *)

(** ** Program counters *)

Inductive gen_pc :=
| GSelect                (* line 25: select *)
| GSend                  (* line 29: ch <- current *)
| GCall                  (* line 30: fn(current) *)
| GFnSum (i : Z)         (* line 68: atomic.AddInt64(&inputSum, i) *)
| GFnCount (i : Z)       (* line 69: atomic.AddInt64(&inputCount, 1) *)
| GIncr                  (* line 31: current++ *)
| GReturn                (* line 27: return, the deferred close(ch) is pending *)
| GDone.

Inductive worker_pc :=
| WRecv                  (* line 44: v, ok := <-in *)
| WSend (v : Z)          (* line 49: out <- v *)
| WSleep                 (* line 51: time.Sleep(time.Millisecond) *)
| WSleeping (wake : Z)   (* inside time.Sleep until the clock reaches wake *)
| WReturn                (* line 46: return, the deferred close(out) is pending *)
| WDone.

Inductive collector_pc :=
| CRecv                  (* line 98: v, ok := <-c *)
| CSend (v : Z)          (* line 102: chOut <- v *)
| CIncr                  (* line 103: amounts[i]++ *)
| CReturn                (* line 100: return, the deferred wg.Done() is pending *)
| CDone.

(** A collector goroutine: the closure of line 93 with its environment.
    [cl_c] is the range variable [c] the closure captures (each iteration
    of the range loop has its own), [cl_in] and [cl_i] are its parameters;
    channels are named by their index in [outs]. *)
Record collector := Collector {
  cl_c : nat;
  cl_in : nat;
  cl_i : nat;
  cl_pc : collector_pc
}.

Inductive barrier_pc :=
| BWait                  (* line 111: wg.Wait() *)
| BClose                 (* line 113: close(chOut) *)
| BDone.

(** How the process ends. *)
Inductive outcome :=
| Exit0                          (* main returns *)
| Fatal (msg : string).          (* log.Fatalf: message, then os.Exit(1) *)

Definition exit_status (o : outcome) : Z :=
  match o with Exit0 => 0 | Fatal _ => 1 end.

Inductive main_pc :=
| MRange                 (* line 120: for v := range chOut *)
| MReport                (* lines 125-127 *)
| MCheck                 (* lines 130-141 *)
| MExit (o : outcome).

(** ** The state of the process *)

Record state := State {
  now : Z;                          (* the clock, ns since the context was made *)
  g_pc : gen_pc;
  current : Z;                      (* Generator's local *)
  inputSum : Z;
  inputCount : Z;
  chIn : channel;
  outs : list channel;
  chOut : channel;
  workers : list worker_pc;
  collectors : list collector;
  amounts : list Z;
  wg : Z;                           (* the WaitGroup counter *)
  barrier : barrier_pc;
  m_pc : main_pc;
  count : Z;
  sum : Z;
  stdout : list string;
  crashed : bool                    (* a goroutine panicked *)
}.

Definition set_now (x : Z) (s : state) : state :=
  State x (g_pc s) (current s) (inputSum s) (inputCount s) (chIn s) (outs s) (chOut s)
    (workers s) (collectors s) (amounts s) (wg s) (barrier s) (m_pc s) (count s) (sum s)
    (stdout s) (crashed s).
Definition set_g_pc (x : gen_pc) (s : state) : state :=
  State (now s) x (current s) (inputSum s) (inputCount s) (chIn s) (outs s) (chOut s)
    (workers s) (collectors s) (amounts s) (wg s) (barrier s) (m_pc s) (count s) (sum s)
    (stdout s) (crashed s).
Definition set_current (x : Z) (s : state) : state :=
  State (now s) (g_pc s) x (inputSum s) (inputCount s) (chIn s) (outs s) (chOut s)
    (workers s) (collectors s) (amounts s) (wg s) (barrier s) (m_pc s) (count s) (sum s)
    (stdout s) (crashed s).
Definition set_inputSum (x : Z) (s : state) : state :=
  State (now s) (g_pc s) (current s) x (inputCount s) (chIn s) (outs s) (chOut s)
    (workers s) (collectors s) (amounts s) (wg s) (barrier s) (m_pc s) (count s) (sum s)
    (stdout s) (crashed s).
Definition set_inputCount (x : Z) (s : state) : state :=
  State (now s) (g_pc s) (current s) (inputSum s) x (chIn s) (outs s) (chOut s)
    (workers s) (collectors s) (amounts s) (wg s) (barrier s) (m_pc s) (count s) (sum s)
    (stdout s) (crashed s).
Definition set_chIn (x : channel) (s : state) : state :=
  State (now s) (g_pc s) (current s) (inputSum s) (inputCount s) x (outs s) (chOut s)
    (workers s) (collectors s) (amounts s) (wg s) (barrier s) (m_pc s) (count s) (sum s)
    (stdout s) (crashed s).
Definition set_outs (x : list channel) (s : state) : state :=
  State (now s) (g_pc s) (current s) (inputSum s) (inputCount s) (chIn s) x (chOut s)
    (workers s) (collectors s) (amounts s) (wg s) (barrier s) (m_pc s) (count s) (sum s)
    (stdout s) (crashed s).
Definition set_chOut (x : channel) (s : state) : state :=
  State (now s) (g_pc s) (current s) (inputSum s) (inputCount s) (chIn s) (outs s) x
    (workers s) (collectors s) (amounts s) (wg s) (barrier s) (m_pc s) (count s) (sum s)
    (stdout s) (crashed s).
Definition set_workers (x : list worker_pc) (s : state) : state :=
  State (now s) (g_pc s) (current s) (inputSum s) (inputCount s) (chIn s) (outs s) (chOut s)
    x (collectors s) (amounts s) (wg s) (barrier s) (m_pc s) (count s) (sum s)
    (stdout s) (crashed s).
Definition set_collectors (x : list collector) (s : state) : state :=
  State (now s) (g_pc s) (current s) (inputSum s) (inputCount s) (chIn s) (outs s) (chOut s)
    (workers s) x (amounts s) (wg s) (barrier s) (m_pc s) (count s) (sum s)
    (stdout s) (crashed s).
Definition set_amounts (x : list Z) (s : state) : state :=
  State (now s) (g_pc s) (current s) (inputSum s) (inputCount s) (chIn s) (outs s) (chOut s)
    (workers s) (collectors s) x (wg s) (barrier s) (m_pc s) (count s) (sum s)
    (stdout s) (crashed s).
Definition set_wg (x : Z) (s : state) : state :=
  State (now s) (g_pc s) (current s) (inputSum s) (inputCount s) (chIn s) (outs s) (chOut s)
    (workers s) (collectors s) (amounts s) x (barrier s) (m_pc s) (count s) (sum s)
    (stdout s) (crashed s).
Definition set_barrier (x : barrier_pc) (s : state) : state :=
  State (now s) (g_pc s) (current s) (inputSum s) (inputCount s) (chIn s) (outs s) (chOut s)
    (workers s) (collectors s) (amounts s) (wg s) x (m_pc s) (count s) (sum s)
    (stdout s) (crashed s).
Definition set_m_pc (x : main_pc) (s : state) : state :=
  State (now s) (g_pc s) (current s) (inputSum s) (inputCount s) (chIn s) (outs s) (chOut s)
    (workers s) (collectors s) (amounts s) (wg s) (barrier s) x (count s) (sum s)
    (stdout s) (crashed s).
Definition set_count (x : Z) (s : state) : state :=
  State (now s) (g_pc s) (current s) (inputSum s) (inputCount s) (chIn s) (outs s) (chOut s)
    (workers s) (collectors s) (amounts s) (wg s) (barrier s) (m_pc s) x (sum s)
    (stdout s) (crashed s).
Definition set_sum (x : Z) (s : state) : state :=
  State (now s) (g_pc s) (current s) (inputSum s) (inputCount s) (chIn s) (outs s) (chOut s)
    (workers s) (collectors s) (amounts s) (wg s) (barrier s) (m_pc s) (count s) x
    (stdout s) (crashed s).
Definition set_stdout (x : list string) (s : state) : state :=
  State (now s) (g_pc s) (current s) (inputSum s) (inputCount s) (chIn s) (outs s) (chOut s)
    (workers s) (collectors s) (amounts s) (wg s) (barrier s) (m_pc s) (count s) (sum s)
    x (crashed s).
Definition panic (s : state) : state :=
  State (now s) (g_pc s) (current s) (inputSum s) (inputCount s) (chIn s) (outs s) (chOut s)
    (workers s) (collectors s) (amounts s) (wg s) (barrier s) (m_pc s) (count s) (sum s)
    (stdout s) true.

(** ** Channel operations *)

Definition get_chan (s : state) (c : chan) : option channel :=
  match c with
  | ChIn => Some (chIn s)
  | ChOuts i => outs s !! i
  | ChOut => Some (chOut s)
  end.

Definition put_chan (c : chan) (ch : channel) (s : state) : state :=
  match c with
  | ChIn => set_chIn ch s
  | ChOuts i => set_outs (<[i:=ch]> (outs s)) s
  | ChOut => set_chOut ch s
  end.

(** [c <- v] without a waiting receiver: the value goes to the buffer when
    there is room, the sender stays blocked ([None]) when there is none;
    sending on a closed channel panics. *)
Definition chan_send (cfg : config) (c : chan) (v : Z) (s : state) : option state :=
  ch ← get_chan s c;
  if closed ch then Some (panic s)
  else if decide (length (buf ch) < chan_cap cfg c)%nat
       then Some (put_chan c (Channel (buf ch ++ [v]) (closed ch)) s)
       else None.

(** [v, ok := <-c] with ok = true: the oldest buffered value. *)
Definition chan_recv (c : chan) (v : Z) (s : state) : option state :=
  ch ← get_chan s c;
  match buf ch with
  | x :: rest => if decide (x = v) then Some (put_chan c (Channel rest (closed ch)) s) else None
  | [] => None
  end.

(** [v, ok := <-c] with ok = false: the channel is closed and drained. *)
Definition chan_recv_closed (c : chan) (s : state) : option state :=
  ch ← get_chan s c;
  match buf ch with
  | [] => if closed ch then Some s else None
  | _ :: _ => None
  end.

(** A send and a receive meet directly on an open channel without buffer. *)
Definition can_sync (cfg : config) (c : chan) (s : state) : bool :=
  match get_chan s c with
  | Some ch => bool_decide (chan_cap cfg c = 0%nat) && negb (closed ch)
               && bool_decide (buf ch = [])
  | None => false
  end.

(** [close(c)]; closing a closed channel panics. *)
Definition chan_close (c : chan) (s : state) : option state :=
  ch ← get_chan s c;
  if closed ch then Some (panic s)
  else Some (put_chan c (Channel (buf ch) true) s).

(** ** Text output *)

Definition nl : string := String (ascii_of_nat 10) EmptyString.

(** Decimal rendering of an integer, as the verb %d and Println do. *)
Definition dec (z : Z) : string := NilZero.string_of_int (Z.to_int z).

(** [fmt.Sprintf] for formats whose only verb is %d. *)
Fixpoint Sprintf (format : string) (args : list Z) : string :=
  match format with
  | EmptyString => EmptyString
  | String a rest =>
      match rest with
      | String b rest' =>
          if (Ascii.eqb a "%" && Ascii.eqb b "d")%bool then
            match args with
            | x :: args' => (dec x ++ Sprintf rest' args')%string
            | [] => ("%!d(MISSING)" ++ Sprintf rest' [])%string
            end
          else String a (Sprintf rest args)
      | EmptyString => String a EmptyString
      end
  end.

Fixpoint join (sep : string) (l : list string) : string :=
  match l with
  | [] => EmptyString
  | [x] => x
  | x :: rest => (x ++ sep ++ join sep rest)%string
  end.

(** [fmt.Println(label, x1, ..., xn)] for integers. *)
Definition Println_ints (label : string) (xs : list Z) : string :=
  (join " " (label :: map dec xs) ++ nl)%string.

(** [fmt.Println(label, slice)] for a slice of integers. *)
Definition Println_slice (label : string) (xs : list Z) : string :=
  (label ++ " [" ++ join " " (map dec xs) ++ "]" ++ nl)%string.

(** ** The final checks of [main], lines 130-141

    The result is how the process ends and the value [inputCount] is left
    with. *)

Definition msg_sum : string := "Ошибка: суммы чисел не равны: %d != %d" ++ nl.
Definition msg_count : string := "Ошибка: количество чисел не равно: %d != %d" ++ nl.
Definition msg_amounts : string := "Ошибка: разделение чисел по каналам неверное" ++ nl.

(** [for _, v := range amounts { inputCount -= v }] *)
Definition subtract_all (inputCount : Z) (amounts : list Z) : Z :=
  foldl (λ acc v, wrap64 (acc - v)) inputCount amounts.

Definition validate (inputSum sum inputCount count : Z) (amounts : list Z)
  : outcome * Z :=
  if decide (inputSum ≠ sum) then
    (Fatal (Sprintf msg_sum [inputSum; sum]), inputCount)
  else if decide (inputCount ≠ count) then
    (Fatal (Sprintf msg_count [inputCount; count]), inputCount)
  else
    let rest := subtract_all inputCount amounts in
    if decide (rest ≠ 0) then (Fatal (Sprintf msg_amounts []), rest)
    else (Exit0, rest).

(** The three report lines, lines 125-127. *)
Definition report (s : state) : list string :=
  [ Println_ints "Количество чисел" [inputCount s; count s];
    Println_ints "Сумма чисел" [inputSum s; sum s];
    Println_slice "Разбивка по каналам" (amounts s) ].

(** ** The goroutines

    Each function gives the transitions of one goroutine: from the
    statement its program counter is at and an event, the state after the
    statement ([None] when the statement cannot run or the event is not
    its own).  For [EvSync] a goroutine plays the side its program counter
    is at; [step] below checks the channel and runs both sides. *)

(** [<-ctx.Done()] is ready once the deadline has passed. *)
Definition ctx_done (cfg : config) (s : state) : bool :=
  bool_decide (timeout cfg ≤ now s).

(** [Generator(ctx, ch, fn)], with [fn] the closure of lines 67-70. *)
Definition Generator (cfg : config) (ch : chan) (e : event) (s : state) : option state :=
  match g_pc s, e with
  | GSelect, EvCtxDone =>
      if ctx_done cfg s then Some (set_g_pc GReturn s) else None
  | GSelect, EvDefault =>
      if ctx_done cfg s then None else Some (set_g_pc GSend s)
  | GSend, EvSend c t v =>
      if decide (c = ch ∧ t = TGen ∧ v = current s)
      then set_g_pc GCall <$> chan_send cfg c v s else None
  | GSend, EvSync c t _ v =>
      if decide (c = ch ∧ t = TGen ∧ v = current s)
      then Some (set_g_pc GCall s) else None
  | GCall, EvCall v =>
      if decide (v = current s) then Some (set_g_pc (GFnSum v) s) else None
  | GFnSum i, EvAtomicAdd InputSum d =>
      if decide (d = i)
      then Some (set_g_pc (GFnCount i) (set_inputSum (wrap64 (inputSum s + i)) s))
      else None
  | GFnCount i, EvAtomicAdd InputCount d =>
      if decide (d = 1)
      then Some (set_g_pc GIncr (set_inputCount (wrap64 (inputCount s + 1)) s))
      else None
  | GIncr, EvIncr t =>
      if decide (t = TGen)
      then Some (set_g_pc GSelect (set_current (wrap64 (current s + 1)) s))
      else None
  | GReturn, EvClose c t =>
      if decide (c = ch ∧ t = TGen) then set_g_pc GDone <$> chan_close c s else None
  | _, _ => None
  end.

Definition goto_worker (i : nat) (pc : worker_pc) (s : state) : state :=
  set_workers (<[i:=pc]> (workers s)) s.

(** [Worker(in, out)], the i-th one started. *)
Definition Worker (cfg : config) (i : nat) (in_ out : chan) (e : event) (s : state)
  : option state :=
  pc ← workers s !! i;
  match pc, e with
  | WRecv, EvSync c _ t v =>
      if decide (c = in_ ∧ t = TWorker i) then Some (goto_worker i (WSend v) s) else None
  | WRecv, EvRecv c t v =>
      if decide (c = in_ ∧ t = TWorker i)
      then goto_worker i (WSend v) <$> chan_recv c v s else None
  | WRecv, EvRecvClosed c t =>
      if decide (c = in_ ∧ t = TWorker i)
      then goto_worker i WReturn <$> chan_recv_closed c s else None
  | WSend v, EvSync c t _ v' =>
      if decide (c = out ∧ t = TWorker i ∧ v' = v)
      then Some (goto_worker i WSleep s) else None
  | WSend v, EvSend c t v' =>
      if decide (c = out ∧ t = TWorker i ∧ v' = v)
      then goto_worker i WSleep <$> chan_send cfg c v s else None
  | WSleep, EvSleep j =>
      if decide (j = i) then Some (goto_worker i (WSleeping (now s + pause cfg)) s) else None
  | WSleeping wake, EvWake j =>
      if decide (j = i ∧ wake ≤ now s) then Some (goto_worker i WRecv s) else None
  | WReturn, EvClose c t =>
      if decide (c = out ∧ t = TWorker i)
      then goto_worker i WDone <$> chan_close c s else None
  | _, _ => None
  end.

Definition goto_collector (k : nat) (cl : collector) (pc : collector_pc) (s : state) : state :=
  set_collectors (<[k:=Collector (cl_c cl) (cl_in cl) (cl_i cl) pc]> (collectors s)) s.

(** [amounts[i]++]; an index out of range panics. *)
Definition incr_amount (i : nat) (s : state) : state :=
  match amounts s !! i with
  | Some a => set_amounts (<[i:=wrap64 (a + 1)]> (amounts s)) s
  | None => panic s
  end.

(** [wg.Done()]; a negative counter panics. *)
Definition wg_done (s : state) : state :=
  if decide (wg s - 1 < 0) then panic s else set_wg (wg s - 1) s.

(** The closure of lines 93-106, the k-th one started.  It reads from the
    captured [c], not from its parameter [in]. *)
Definition collect (cfg : config) (k : nat) (out : chan) (e : event) (s : state)
  : option state :=
  cl ← collectors s !! k;
  match cl_pc cl, e with
  | CRecv, EvSync c _ t v =>
      if decide (c = ChOuts (cl_c cl) ∧ t = TCollector k)
      then Some (goto_collector k cl (CSend v) s) else None
  | CRecv, EvRecv c t v =>
      if decide (c = ChOuts (cl_c cl) ∧ t = TCollector k)
      then goto_collector k cl (CSend v) <$> chan_recv c v s else None
  | CRecv, EvRecvClosed c t =>
      if decide (c = ChOuts (cl_c cl) ∧ t = TCollector k)
      then goto_collector k cl CReturn <$> chan_recv_closed c s else None
  | CSend v, EvSync c t _ v' =>
      if decide (c = out ∧ t = TCollector k ∧ v' = v)
      then Some (goto_collector k cl CIncr s) else None
  | CSend v, EvSend c t v' =>
      if decide (c = out ∧ t = TCollector k ∧ v' = v)
      then goto_collector k cl CIncr <$> chan_send cfg c v s else None
  | CIncr, EvIncr t =>
      if decide (t = TCollector k)
      then Some (goto_collector k cl CRecv (incr_amount (cl_i cl) s)) else None
  | CReturn, EvWgDone j =>
      if decide (j = k) then Some (goto_collector k cl CDone (wg_done s)) else None
  | _, _ => None
  end.

(** The closure of lines 109-114. *)
Definition wait_and_close (out : chan) (e : event) (s : state) : option state :=
  match barrier s, e with
  | BWait, EvWgWait =>
      if decide (wg s = 0) then Some (set_barrier BClose s) else None
  | BClose, EvClose c t =>
      if decide (c = out ∧ t = TBarrier) then set_barrier BDone <$> chan_close c s else None
  | _, _ => None
  end.

(** The loop body of line 120: [count++; sum += v]. *)
Definition tally_result (v : Z) (s : state) : state :=
  set_sum (wrap64 (sum s + v)) (set_count (wrap64 (count s + 1)) s).

(** [main] from line 116 on. *)
Definition main (e : event) (s : state) : option state :=
  match m_pc s, e with
  | MRange, EvRecv c t v =>
      if decide (c = ChOut ∧ t = TMain) then tally_result v <$> chan_recv c v s else None
  | MRange, EvSync c _ t v =>
      if decide (c = ChOut ∧ t = TMain) then Some (tally_result v s) else None
  | MRange, EvRecvClosed c t =>
      if decide (c = ChOut ∧ t = TMain)
      then set_m_pc MReport <$> chan_recv_closed c s else None
  | MReport, EvPrint =>
      Some (set_m_pc MCheck (set_stdout (stdout s ++ report s) s))
  | MCheck, EvValidate =>
      let r := validate (inputSum s) (sum s) (inputCount s) (count s) (amounts s) in
      Some (set_m_pc (MExit r.1) (set_inputCount r.2 s))
  | _, _ => None
  end.

(** ** The system *)

Definition run_task (cfg : config) (t : task) (e : event) (s : state) : option state :=
  match t with
  | TGen => Generator cfg ChIn e s
  | TWorker i => Worker cfg i ChIn (ChOuts i) e s
  | TCollector k => collect cfg k ChOut e s
  | TBarrier => wait_and_close ChOut e s
  | TMain => main e s
  end.

(** The goroutine an event belongs to (the sender for [EvSync]). *)
Definition actor (e : event) : option task :=
  match e with
  | EvTick _ => None
  | EvCtxDone | EvDefault | EvCall _ | EvAtomicAdd _ _ => Some TGen
  | EvSync _ t _ _ | EvSend _ t _ | EvRecv _ t _ | EvRecvClosed _ t
  | EvClose _ t | EvIncr t => Some t
  | EvSleep i | EvWake i => Some (TWorker i)
  | EvWgDone k => Some (TCollector k)
  | EvWgWait => Some TBarrier
  | EvPrint | EvValidate => Some TMain
  end.

(** The process runs until a goroutine panics or [main] ends. *)
Definition running (s : state) : bool :=
  negb (crashed s) && match m_pc s with MExit _ => false | _ => true end.

Definition step (cfg : config) (e : event) (s : state) : option state :=
  if running s then
    match e with
    | EvTick d => if decide (0 < d) then Some (set_now (now s + d) s) else None
    | EvSync c snd rcv v =>
        if bool_decide (snd ≠ rcv) && can_sync cfg c s
        then s' ← run_task cfg snd e s; run_task cfg rcv e s'
        else None
    | _ => t ← actor e; run_task cfg t e s
    end
  else None.

(** The state once [main] has started every goroutine (lines 56-114): the
    k-th collector closure holds outs[k] in [c] and [in], and k in [i]. *)
Definition init (cfg : config) : state :=
  {| now := 0;
     g_pc := GSelect; current := 1; inputSum := 0; inputCount := 0;
     chIn := make_chan;
     outs := replicate (NumOut cfg) make_chan;
     chOut := make_chan;
     workers := replicate (NumOut cfg) WRecv;
     collectors := (λ k, Collector k k k CRecv) <$> seq 0 (NumOut cfg);
     amounts := replicate (NumOut cfg) 0;
     wg := Z.of_nat (NumOut cfg);
     barrier := BWait;
     m_pc := MRange; count := 0; sum := 0;
     stdout := [];
     crashed := false |}.

(** Runs: the events in the order they happen. *)
Fixpoint exec (cfg : config) (tr : list event) (s : state) : option state :=
  match tr with
  | [] => Some s
  | e :: tr' => s' ← step cfg e s; exec cfg tr' s'
  end.

Definition runs (cfg : config) (tr : list event) (s : state) : Prop :=
  exec cfg tr (init cfg) = Some s.

Definition reachable (cfg : config) (s : state) : Prop := ∃ tr, runs cfg tr s.

(** ** The transitions, case by case

    [Step] lists the transitions the program can take when no statement
    panics and the collectors' environments are as [init] made them;
    [Abnormal] lists the others.  [step_cases] relates them to [step]. *)

Inductive Step (cfg : config) (s : state) : event → state → Prop :=
| step_tick d :
    0 < d →
    Step cfg s (EvTick d) (set_now (now s + d) s)
| step_ctx_done :
    g_pc s = GSelect → timeout cfg ≤ now s →
    Step cfg s EvCtxDone (set_g_pc GReturn s)
| step_default :
    g_pc s = GSelect → now s < timeout cfg →
    Step cfg s EvDefault (set_g_pc GSend s)
| step_publish i :
    g_pc s = GSend → workers s !! i = Some WRecv →
    closed (chIn s) = false →
    Step cfg s (EvSync ChIn TGen (TWorker i) (current s))
      (goto_worker i (WSend (current s)) (set_g_pc GCall s))
| step_call :
    g_pc s = GCall →
    Step cfg s (EvCall (current s)) (set_g_pc (GFnSum (current s)) s)
| step_add_sum i :
    g_pc s = GFnSum i →
    Step cfg s (EvAtomicAdd InputSum i)
      (set_g_pc (GFnCount i) (set_inputSum (wrap64 (inputSum s + i)) s))
| step_add_count i :
    g_pc s = GFnCount i →
    Step cfg s (EvAtomicAdd InputCount 1)
      (set_g_pc GIncr (set_inputCount (wrap64 (inputCount s + 1)) s))
| step_next :
    g_pc s = GIncr →
    Step cfg s (EvIncr TGen) (set_g_pc GSelect (set_current (wrap64 (current s + 1)) s))
| step_close_in :
    g_pc s = GReturn → closed (chIn s) = false →
    Step cfg s (EvClose ChIn TGen)
      (set_g_pc GDone (set_chIn (Channel (buf (chIn s)) true) s))
| step_worker_eof i :
    workers s !! i = Some WRecv → closed (chIn s) = true →
    Step cfg s (EvRecvClosed ChIn (TWorker i)) (goto_worker i WReturn s)
| step_forward i v cl ch :
    workers s !! i = Some (WSend v) →
    collectors s !! i = Some cl → cl_pc cl = CRecv →
    outs s !! i = Some ch → closed ch = false →
    Step cfg s (EvSync (ChOuts i) (TWorker i) (TCollector i) v)
      (goto_collector i cl (CSend v) (goto_worker i WSleep s))
| step_sleep i :
    workers s !! i = Some WSleep →
    Step cfg s (EvSleep i) (goto_worker i (WSleeping (now s + pause cfg)) s)
| step_wake i wake :
    workers s !! i = Some (WSleeping wake) → wake ≤ now s →
    Step cfg s (EvWake i) (goto_worker i WRecv s)
| step_close_out i ch :
    workers s !! i = Some WReturn →
    outs s !! i = Some ch → closed ch = false →
    Step cfg s (EvClose (ChOuts i) (TWorker i))
      (goto_worker i WDone (set_outs (<[i:=Channel (buf ch) true]> (outs s)) s))
| step_collector_eof k cl ch :
    collectors s !! k = Some cl → cl_pc cl = CRecv →
    outs s !! k = Some ch → closed ch = true →
    Step cfg s (EvRecvClosed (ChOuts k) (TCollector k)) (goto_collector k cl CReturn s)
| step_collect k cl v :
    collectors s !! k = Some cl → cl_pc cl = CSend v →
    closed (chOut s) = false → (length (buf (chOut s)) < NumOut cfg)%nat →
    Step cfg s (EvSend ChOut (TCollector k) v)
      (goto_collector k cl CIncr
         (set_chOut (Channel (buf (chOut s) ++ [v]) (closed (chOut s))) s))
| step_count k cl a :
    collectors s !! k = Some cl → cl_pc cl = CIncr →
    amounts s !! k = Some a →
    Step cfg s (EvIncr (TCollector k))
      (goto_collector k cl CRecv (set_amounts (<[k:=wrap64 (a + 1)]> (amounts s)) s))
| step_wg_done k cl :
    collectors s !! k = Some cl → cl_pc cl = CReturn → 0 < wg s →
    Step cfg s (EvWgDone k) (goto_collector k cl CDone (set_wg (wg s - 1) s))
| step_wg_wait :
    barrier s = BWait → wg s = 0 →
    Step cfg s EvWgWait (set_barrier BClose s)
| step_close_result :
    barrier s = BClose → closed (chOut s) = false →
    Step cfg s (EvClose ChOut TBarrier)
      (set_barrier BDone (set_chOut (Channel (buf (chOut s)) true) s))
| step_result v rest :
    m_pc s = MRange → buf (chOut s) = v :: rest →
    Step cfg s (EvRecv ChOut TMain v)
      (tally_result v (set_chOut (Channel rest (closed (chOut s))) s))
| step_results_eof :
    m_pc s = MRange → buf (chOut s) = [] → closed (chOut s) = true →
    Step cfg s (EvRecvClosed ChOut TMain) (set_m_pc MReport s)
| step_print :
    m_pc s = MReport →
    Step cfg s EvPrint (set_m_pc MCheck (set_stdout (stdout s ++ report s) s))
| step_validate :
    m_pc s = MCheck →
    Step cfg s EvValidate
      (set_m_pc (MExit (validate (inputSum s) (sum s) (inputCount s) (count s) (amounts s)).1)
         (set_inputCount
            (validate (inputSum s) (sum s) (inputCount s) (count s) (amounts s)).2 s)).

(** What a state must exclude for only the transitions of [Step] to
    happen: a panic, a value held by an unbuffered channel, a collector
    whose environment was changed. *)
Inductive Abnormal (cfg : config) (s : state) : Prop :=
| ab_in_closed :
    g_pc s ≠ GDone → closed (chIn s) = true → Abnormal cfg s
| ab_in_buffered :
    buf (chIn s) ≠ [] → Abnormal cfg s
| ab_out_closed i ch :
    outs s !! i = Some ch → closed ch = true →
    workers s !! i ≠ Some WDone → Abnormal cfg s
| ab_out_buffered i ch :
    outs s !! i = Some ch → buf ch ≠ [] → Abnormal cfg s
| ab_env k cl :
    collectors s !! k = Some cl → ¬ (cl_c cl = k ∧ cl_i cl = k) → Abnormal cfg s
| ab_lanes k cl :
    collectors s !! k = Some cl →
    outs s !! k = None ∨ amounts s !! k = None ∨ (NumOut cfg ≤ k)%nat → Abnormal cfg s
| ab_result_closed k cl :
    collectors s !! k = Some cl → cl_pc cl ≠ CDone → cl_pc cl ≠ CReturn →
    closed (chOut s) = true → Abnormal cfg s
| ab_wg k cl :
    collectors s !! k = Some cl → cl_pc cl = CReturn → wg s ≤ 0 → Abnormal cfg s
| ab_barrier :
    barrier s ≠ BDone → closed (chOut s) = true → Abnormal cfg s.

(** ** Sums over lanes *)

Definition sumZ (l : list Z) : Z := foldr Z.add 0 l.

(** A collector counts in the WaitGroup until its [wg.Done()]. *)
Definition live (cl : collector) : Z :=
  match cl_pc cl with CDone => 0 | _ => 1 end.

Record wf (cfg : config) (s : state) : Prop := Wf {
  wf_crashed : crashed s = false;
  wf_outs_len : length (outs s) = NumOut cfg;
  wf_workers_len : length (workers s) = NumOut cfg;
  wf_collectors_len : length (collectors s) = NumOut cfg;
  wf_amounts_len : length (amounts s) = NumOut cfg;
  wf_in_closed : closed (chIn s) = true → g_pc s = GDone;
  wf_in_buf : buf (chIn s) = [];
  wf_outs_buf : ∀ i ch, outs s !! i = Some ch → buf ch = [];
  wf_outs_closed : ∀ i ch, outs s !! i = Some ch → closed ch = true →
                   workers s !! i = Some WDone;
  wf_env : ∀ k cl, collectors s !! k = Some cl → cl_c cl = k ∧ cl_i cl = k ∧ cl_in cl = k;
  wf_wg : wg s = sumZ (live <$> collectors s);
  wf_barrier : barrier s ≠ BWait → wg s = 0;
  wf_out_closed : closed (chOut s) = true → barrier s = BDone
}.


(** ** What a run has done: projections of its events *)

(** The values the generator sent on chIn, in order. *)
Definition published (tr : list event) : list Z :=
  omap (λ e, match e with EvSync ChIn _ _ v => Some v | _ => None end) tr.

(** The values worker i received from chIn. *)
Definition received (i : nat) (tr : list event) : list Z :=
  omap (λ e, match e with
             | EvSync ChIn _ (TWorker j) v => if decide (j = i) then Some v else None
             | _ => None
             end) tr.

(** The values that went through outs[i]. *)
Definition forwarded (i : nat) (tr : list event) : list Z :=
  omap (λ e, match e with
             | EvSync (ChOuts j) _ _ v => if decide (j = i) then Some v else None
             | _ => None
             end) tr.

(** The values sent on chOut, in order. *)
Definition collected (tr : list event) : list Z :=
  omap (λ e, match e with EvSend ChOut _ v => Some v | _ => None end) tr.

(** The values [main] read from chOut, in order. *)
Definition results (tr : list event) : list Z :=
  omap (λ e, match e with EvRecv ChOut _ v => Some v | _ => None end) tr.

(** The clock of a run: the sum of its ticks. *)
Definition clock (tr : list event) : Z :=
  sumZ (omap (λ e, match e with EvTick d => Some d | _ => None end) tr).

(** ** Values in flight *)

Definition w_hold (pc : worker_pc) : list Z :=
  match pc with WSend v => [v] | _ => [] end.

Definition c_hold (cl : collector) : list Z :=
  match cl_pc cl with CSend v => [v] | _ => [] end.

(** The values received from chIn and not yet sent on chOut. *)
Definition in_flight (s : state) : list Z :=
  concat (w_hold <$> workers s) ++ concat (c_hold <$> collectors s).

(** A value sent on chOut whose [amounts[i]++] is still to come. *)
Definition uncounted (cl : collector) : Z :=
  match cl_pc cl with CIncr => 1 | _ => 0 end.

(** What the generator has published and its callback has not added yet. *)
Definition untallied_sum (s : state) : Z :=
  match g_pc s with GCall => current s | GFnSum i => i | _ => 0 end.

Definition untallied_count (s : state) : Z :=
  match g_pc s with GCall | GFnSum _ | GFnCount _ => 1 | _ => 0 end.

(** ** The accounting invariant *)

Record accounting (tr : list event) (s : state) : Prop := Accounting {
  acc_flow : published tr ≡ₚ in_flight s ++ collected tr;
  acc_fifo : collected tr = results tr ++ buf (chOut s);
  acc_count : count s = wrap64 (Z.of_nat (length (results tr)));
  acc_sum : sum s = wrap64 (sumZ (results tr));
  acc_inputSum : inputSum s = wrap64 (sumZ (published tr) - untallied_sum s);
  acc_inputCount :
    (∀ o, m_pc s ≠ MExit o) →
    inputCount s = wrap64 (Z.of_nat (length (published tr)) - untallied_count s);
  acc_amounts :
    wrap64 (sumZ (amounts s))
    = wrap64 (Z.of_nat (length (collected tr)) - sumZ (uncounted <$> collectors s))
}.

(** ** The shutdown cascade *)

Definition worker_finished (pc : worker_pc) : Prop := pc = WReturn ∨ pc = WDone.
Definition collector_finished (cl : collector) : Prop :=
  cl_pc cl = CReturn ∨ cl_pc cl = CDone.

Record cascade (cfg : config) (s : state) : Prop := Cascade {
  casc_main : m_pc s ≠ MRange → closed (chOut s) = true ∧ buf (chOut s) = [];
  casc_collector : ∀ k cl ch,
    collectors s !! k = Some cl → collector_finished cl →
    outs s !! k = Some ch → closed ch = true;
  casc_worker : ∀ i pc,
    workers s !! i = Some pc → worker_finished pc → closed (chIn s) = true;
  casc_gen : untallied_count s = 1 ∨ g_pc s = GIncr → (0 < NumOut cfg)%nat
}.

(** The generator is between two values: all it published is tallied. *)
Definition gen_idle (s : state) : Prop :=
  match g_pc s with
  | GSelect | GSend | GReturn | GDone => True
  | _ => False
  end.

(** Nothing is left anywhere between the generator and [main]. *)
Definition drained (s : state) : Prop :=
  gen_idle s ∧ in_flight s = [] ∧ buf (chOut s) = []
  ∧ (∀ k cl, collectors s !! k = Some cl → cl_pc cl = CDone).

Arguments published : simpl never.
Arguments received : simpl never.
Arguments forwarded : simpl never.
Arguments collected : simpl never.
Arguments results : simpl never.
Arguments clock : simpl never.

(** ** Timing

    A worker sleeps [pause] after each value, so by the time t it has
    received at most t / pause + 1 values; the generator publishes only
    after finding the deadline not reached, except for the one send it may
    be blocked in when the deadline passes. *)

(** The values one worker can receive before the deadline. *)
Definition lane_quota (cfg : config) : Z :=
  Z.max 0 ((timeout cfg - 1) / pause cfg + 1).

(** The values the generator can publish in a run. *)
Definition emit_bound (cfg : config) : Z :=
  Z.of_nat (NumOut cfg) * lane_quota cfg + 1.

(** Worker at [pc] having received r values, at time t. *)
Definition on_time (cfg : config) (r t : Z) (pc : worker_pc) : Prop :=
  match pc with
  | WSend _ | WSleep => (r - 1) * pause cfg ≤ t
  | WSleeping wake => r * pause cfg ≤ wake ∧ (r - 1) * pause cfg ≤ t
  | WRecv | WReturn | WDone => r * pause cfg ≤ t
  end.

Definition sum_received (n : nat) (tr : list event) : Z :=
  sumZ ((λ i, Z.of_nat (length (received i tr))) <$> seq 0 n).

Record timing (cfg : config) (tr : list event) (s : state) : Prop := Timing {
  tm_clock : now s = clock tr;
  tm_lane : ∀ i pc, workers s !! i = Some pc →
            on_time cfg (Z.of_nat (length (received i tr))) (now s) pc;
  tm_quota : g_pc s = GSend → ∀ i, (i < NumOut cfg)%nat →
             Z.of_nat (length (received i tr)) ≤ lane_quota cfg;
  tm_total : Z.of_nat (length (published tr)) = sum_received (NumOut cfg) tr;
  tm_bound : Z.of_nat (length (published tr)) ≤ emit_bound cfg
}.

(** No tally can overflow in a run of this configuration. *)
Definition no_overflow (cfg : config) : Prop :=
  0 < pause cfg ∧ emit_bound cfg < 2 ^ 32 ∧ Z.of_nat (NumOut cfg) < 2 ^ 31.

(** ** What the generator does, seen from outside *)

(** 1, 2, ..., n *)
Definition naturals (n : nat) : list Z := seqZ 1 (Z.of_nat n).

Inductive gen_obs :=
| Published (v : Z)      (* ch <- v completed *)
| Called (v : Z)         (* fn(v) *)
| Incremented.           (* current++ *)

Definition gen_view (e : event) : option gen_obs :=
  match e with
  | EvSync ChIn TGen _ v | EvSend ChIn TGen v => Some (Published v)
  | EvCall v => Some (Called v)
  | EvIncr TGen => Some Incremented
  | _ => None
  end.

Definition gen_history (tr : list event) : list gen_obs := omap gen_view tr.

Arguments gen_history : simpl never.

(** One turn of the loop for the value k, as the specification has it:
    publish, call the observer with the published value, increment. *)
Definition gen_round (k : Z) : list gen_obs := [Published k; Called k; Incremented].

(** The steps of the current turn still to come. *)
Definition gen_missing (s : state) : nat :=
  match g_pc s with
  | GCall => 2
  | GFnSum _ | GFnCount _ | GIncr => 1
  | _ => 0
  end.

(** [current] is the next value to publish, or the one just published. *)
Definition next_offset (s : state) : Z :=
  match g_pc s with
  | GSelect | GSend | GReturn | GDone => 1
  | _ => 0
  end.

Record sequence (tr : list event) (s : state) : Prop := Sequence {
  sq_published : published tr = wrap64 <$> naturals (length (published tr));
  sq_current : current s = wrap64 (Z.of_nat (length (published tr)) + next_offset s);
  sq_arg : ∀ i, g_pc s = GFnSum i ∨ g_pc s = GFnCount i → i = current s;
  sq_last : next_offset s = 0 → ∃ before, published tr = before ++ [current s];
  sq_history :
    gen_history tr
    = take (length (published tr ≫= gen_round) - gen_missing s)
        (published tr ≫= gen_round)
}.

(** ** Lanes *)

(** The values collector k sent on chOut. *)
Definition collected_by (k : nat) (tr : list event) : list Z :=
  omap (λ e, match e with
             | EvSend ChOut (TCollector j) v => if decide (j = k) then Some v else None
             | _ => None
             end) tr.

Arguments collected_by : simpl never.

(** Lane i keeps the order of its values: what worker i received is what
    went through outs[i] and then to chOut, but for the value the worker
    or the collector holds; amounts[i] counts the values sent on. *)
Record lane_flow (tr : list event) (s : state) : Prop := LaneFlow {
  lf_worker : ∀ i pc,
    workers s !! i = Some pc → received i tr = forwarded i tr ++ w_hold pc;
  lf_collector : ∀ i cl,
    collectors s !! i = Some cl → forwarded i tr = collected_by i tr ++ c_hold cl;
  lf_amounts : ∀ i cl a,
    collectors s !! i = Some cl → amounts s !! i = Some a →
    a = wrap64 (Z.of_nat (length (collected_by i tr)) - uncounted cl);
  lf_uncounted : ∀ i cl,
    collectors s !! i = Some cl → uncounted cl ≤ Z.of_nat (length (collected_by i tr))
}.

(** ** Who uses which channel *)

(** The channel an event receives from, and the goroutine that receives. *)
Definition reads (e : event) : option (chan * task) :=
  match e with
  | EvSync c _ t _ | EvRecv c t _ | EvRecvClosed c t => Some (c, t)
  | _ => None
  end.

(** The channel an event sends on, and the goroutine that sends. *)
Definition writes (e : event) : option (chan * task) :=
  match e with
  | EvSync c t _ _ | EvSend c t _ => Some (c, t)
  | _ => None
  end.

(** The goroutines of the data model: one writer per channel but for
    chOut, one reader per channel but for chIn. *)
Definition writer_of (c : chan) (t : task) : Prop :=
  match c with
  | ChIn => t = TGen
  | ChOuts i => t = TWorker i
  | ChOut => ∃ k, t = TCollector k
  end.

Definition reader_of (c : chan) (t : task) : Prop :=
  match c with
  | ChIn => ∃ i, t = TWorker i
  | ChOuts i => t = TCollector i
  | ChOut => t = TMain
  end.

(** The goroutine that closes a channel. *)
Definition closer_of (c : chan) : task :=
  match c with
  | ChIn => TGen
  | ChOuts i => TWorker i
  | ChOut => TBarrier
  end.

(** The goroutines that closed c in a run, in order. *)
Definition closes_of (c : chan) (tr : list event) : list task :=
  omap (λ e, match e with
             | EvClose c' t => if decide (c' = c) then Some t else None
             | _ => None
             end) tr.

Arguments closes_of : simpl never.

(** The channels [main] made. *)
Definition is_chan (cfg : config) (c : chan) : Prop :=
  match c with ChOuts i => (i < NumOut cfg)%nat | _ => True end.

(** What has been closed, and what a goroutine that left its loop has
    seen. *)
Record closing (cfg : config) (tr : list event) (s : state) : Prop := Closing {
  cls_open : ∀ c ch, get_chan s c = Some ch → closed ch = false → closes_of c tr = [];
  cls_closed : ∀ c ch, get_chan s c = Some ch → closed ch = true →
               closes_of c tr = [closer_of c];
  cls_none : ∀ c, get_chan s c = None → closes_of c tr = [];
  cls_gen : g_pc s = GDone → closed (chIn s) = true;
  cls_gen_return : g_pc s = GReturn ∨ g_pc s = GDone → EvCtxDone ∈ tr;
  cls_worker : ∀ i ch, workers s !! i = Some WDone → outs s !! i = Some ch →
               closed ch = true;
  cls_worker_eof : ∀ i pc, workers s !! i = Some pc → worker_finished pc →
                   EvRecvClosed ChIn (TWorker i) ∈ tr;
  cls_collector_eof : ∀ k cl, collectors s !! k = Some cl → collector_finished cl →
                      EvRecvClosed (ChOuts k) (TCollector k) ∈ tr;
  cls_collector_done : ∀ k cl, collectors s !! k = Some cl → cl_pc cl = CDone →
                       EvWgDone k ∈ tr;
  cls_barrier : barrier s ≠ BWait → EvWgWait ∈ tr
}.

(** ** Sample runs of the program as [task.go] configures it *)

(** The value v goes through lane i and reaches [main]. *)
Definition demo_item (v : Z) (i : nat) : list event :=
  [ EvDefault; EvSync ChIn TGen (TWorker i) v; EvCall v; EvAtomicAdd InputSum v;
    EvAtomicAdd InputCount 1; EvIncr TGen;
    EvSync (ChOuts i) (TWorker i) (TCollector i) v; EvSleep i;
    EvSend ChOut (TCollector i) v; EvIncr (TCollector i);
    EvRecv ChOut TMain v; EvTick Millisecond; EvWake i ].

(** Lane i shuts down once chIn is closed. *)
Definition demo_lane_down (i : nat) : list event :=
  [ EvRecvClosed ChIn (TWorker i); EvClose (ChOuts i) (TWorker i);
    EvRecvClosed (ChOuts i) (TCollector i); EvWgDone i ].

(** The deadline passes and everything shuts down, up to the report. *)
Definition demo_shutdown : list event :=
  [EvTick Second; EvCtxDone; EvClose ChIn TGen]
  ++ flat_map demo_lane_down (seq 0 5)
  ++ [EvWgWait; EvClose ChOut TBarrier; EvRecvClosed ChOut TMain].

(** Three values, then the shutdown: [main] is about to report. *)
Definition demo_report : list event :=
  demo_item 1 0 ++ demo_item 2 3 ++ demo_item 3 0 ++ demo_shutdown.

(** The same run to its end. *)
Definition demo_exit : list event := demo_report ++ [EvPrint; EvValidate].

(** The deadline passes while the generator is blocked in its third send;
    the send completes later. *)
Definition demo_late_send : list event :=
  demo_item 1 0 ++ demo_item 2 3 ++ [EvDefault; EvTick Second]
  ++ [EvSync ChIn TGen (TWorker 1) 3].

(** The state a sample run ends in. *)
Definition state_after (tr : list event) : state :=
  default (init task_go) (exec task_go tr (init task_go)).

(** ** Reading messages *)

(** [contains sub s]: the text [sub] occurs in [s]. *)
Fixpoint contains (sub s : string) : bool :=
  String.prefix sub s
  || match s with
     | EmptyString => false
     | String _ s' => contains sub s'
     end.

(** A message shows both values of a failed comparison. *)
Definition shows_values (msg : string) (a b : Z) : Prop :=
  contains (dec a) msg = true ∧ contains (dec b) msg = true.

(** The value collector k has received and not yet counted, if any. *)
Definition in_hand (cl : collector) : Z :=
  Z.of_nat (length (c_hold cl)) + uncounted cl.

(** ** What a worker does, seen from outside *)

Inductive worker_obs :=
| Received (c : chan) (v : Z)        (* v, ok := <-c with ok = true *)
| InputClosed (c : chan)             (* v, ok := <-c with ok = false *)
| Forwarded (c : chan) (v : Z)       (* c <- v completed *)
| FellAsleep (t : Z)                 (* time.Sleep entered at time t *)
| WokeUp (t : Z)                     (* time.Sleep left at time t *)
| Released (c : chan).               (* close(c) *)

Definition worker_view (i : nat) (t : Z) (e : event) : option worker_obs :=
  match e with
  | EvSync c a b v =>
      if decide (b = TWorker i) then Some (Received c v)
      else if decide (a = TWorker i) then Some (Forwarded c v) else None
  | EvRecv c a v => if decide (a = TWorker i) then Some (Received c v) else None
  | EvSend c a v => if decide (a = TWorker i) then Some (Forwarded c v) else None
  | EvRecvClosed c a => if decide (a = TWorker i) then Some (InputClosed c) else None
  | EvClose c a => if decide (a = TWorker i) then Some (Released c) else None
  | EvSleep j => if decide (j = i) then Some (FellAsleep t) else None
  | EvWake j => if decide (j = i) then Some (WokeUp t) else None
  | _ => None
  end.

(** The events of a run, each with the time at which it happens. *)
Fixpoint stamp (t : Z) (tr : list event) : list (Z * event) :=
  match tr with
  | [] => []
  | e :: tr' => (t, e) :: stamp (t + match e with EvTick d => d | _ => 0 end) tr'
  end.

Definition worker_history (i : nat) (tr : list event) : list worker_obs :=
  omap (λ p, worker_view i p.1 p.2) (stamp 0 tr).

(** The worker of the specification: read one value from the input
    channel; if it reports no more values release the output channel and
    stop; otherwise publish the value unchanged on the output channel,
    pause for the fixed delay, and read again. *)
Inductive worker_phase :=
| Reading
| Publishing (v : Z)
| Pausing
| Paused (until : Z)
| Releasing
| Stopped.

Definition worker_next (delay : Z) (input output : chan) (ph : worker_phase)
  (o : worker_obs) : option worker_phase :=
  match ph, o with
  | Reading, Received c v => if decide (c = input) then Some (Publishing v) else None
  | Reading, InputClosed c => if decide (c = input) then Some Releasing else None
  | Publishing v, Forwarded c v' =>
      if decide (c = output ∧ v' = v) then Some Pausing else None
  | Pausing, FellAsleep t => Some (Paused (t + delay))
  | Paused until, WokeUp t => if decide (until ≤ t) then Some Reading else None
  | Releasing, Released c => if decide (c = output) then Some Stopped else None
  | _, _ => None
  end.

(** The phase the specification's worker is in after a history, [None]
    when the history is not one of its own. *)
Definition worker_follows (delay : Z) (input output : chan) (h : list worker_obs)
  : option worker_phase :=
  foldl (λ ph o, ph ≫= λ p, worker_next delay input output p o) (Some Reading) h.

Definition phase_of (pc : worker_pc) : worker_phase :=
  match pc with
  | WRecv => Reading
  | WSend v => Publishing v
  | WSleep => Pausing
  | WSleeping wake => Paused wake
  | WReturn => Releasing
  | WDone => Stopped
  end.

(** ** Cancellation *)

(** The same program with another deadline. *)
Definition with_timeout (t : Z) (cfg : config) : config :=
  {| NumOut := NumOut cfg; timeout := t; pause := pause cfg |}.

(** The last thing the generator did in a run is to find the context not
    cancelled. *)
Definition checked_last (tr : list event) : Prop :=
  ∃ before after, tr = before ++ EvDefault :: after
                  ∧ Forall (λ e, actor e ≠ Some TGen) after.

(** The generator is blocked in a send while the deadline has passed. *)
Definition demo_blocked : list event :=
  demo_item 1 0 ++ demo_item 2 3 ++ [EvDefault; EvTick Second].

(** ** Further properties: definitions *)

(** The collectors that have called [wg.Done()], in order. *)
Definition wg_dones (tr : list event) : list nat :=
  omap (λ e, match e with EvWgDone k => Some k | _ => None end) tr.

Arguments wg_dones : simpl never.

(** 1 + 2 + ... + n *)
Definition triangle (n : Z) : Z := n * (n + 1) / 2.

(** A run in which the first value is still on its way when the third is
    published. *)
Definition demo_busy : list event :=
  [ EvDefault; EvSync ChIn TGen (TWorker 0) 1; EvCall 1; EvAtomicAdd InputSum 1;
    EvAtomicAdd InputCount 1; EvIncr TGen;
    EvDefault; EvSync ChIn TGen (TWorker 3) 2; EvCall 2; EvAtomicAdd InputSum 2;
    EvSync (ChOuts 3) (TWorker 3) (TCollector 3) 2;
    EvSend ChOut (TCollector 3) 2; EvRecv ChOut TMain 2 ].

(** ** What is left to do

    A weight for each statement a goroutine can be at, larger than the
    weight of what the statement leads to plus what it makes another
    goroutine or chOut take on. *)

Definition gen_todo (pc : gen_pc) : Z :=
  match pc with
  | GSend => 13 | GCall => 6 | GFnSum _ => 5 | GFnCount _ => 4
  | GIncr => 3 | GSelect => 2 | GReturn => 1 | GDone => 0
  end.

Definition worker_todo (pc : worker_pc) : Z :=
  match pc with
  | WSend _ => 8 | WSleep => 4 | WSleeping _ => 3 | WRecv => 2 | WReturn => 1 | WDone => 0
  end.

Definition collector_todo (cl : collector) : Z :=
  match cl_pc cl with
  | CSend _ => 5 | CIncr => 3 | CRecv => 2 | CReturn => 1 | CDone => 0
  end.

Definition barrier_todo (pc : barrier_pc) : Z :=
  match pc with BWait => 2 | BClose => 1 | BDone => 0 end.

Definition main_todo (pc : main_pc) : Z :=
  match pc with MRange => 3 | MReport => 2 | MCheck => 1 | MExit _ => 0 end.

(** What is left to do once the deadline has passed: every transition
    other than a tick of the clock makes it smaller. *)
Definition todo (s : state) : Z :=
  gen_todo (g_pc s) + sumZ (worker_todo <$> workers s)
  + sumZ (collector_todo <$> collectors s) + barrier_todo (barrier s)
  + Z.of_nat (length (buf (chOut s))) + main_todo (m_pc s).

(** The statements executed in a run: its events other than the ticks of
    the clock. *)
Definition statements (tr : list event) : nat :=
  length (filter (λ e, is_Some (actor e)) tr).

(** The generator completes its late send and finds the context
    cancelled; then it closes chIn and worker 2 sees it. *)
Definition demo_cancelled : list event :=
  demo_blocked
  ++ [ EvSync ChIn TGen (TWorker 1) 3; EvCall 3; EvAtomicAdd InputSum 3;
       EvAtomicAdd InputCount 1; EvIncr TGen; EvCtxDone ].

Definition demo_lane_stops : list event :=
  [ EvClose ChIn TGen; EvTick 5; EvRecvClosed ChIn (TWorker 2) ].

(** * Proofs *)

Lemma running_true s :
  running s = true → crashed s = false ∧ ∀ o, m_pc s ≠ MExit o.
Proof.
  unfold running. destruct (crashed s), (m_pc s); simpl; try done; by split.
Qed.

Lemma step_running cfg e s s' : step cfg e s = Some s' → running s = true.
Proof. unfold step. by destruct (running s). Qed.

(** Each goroutine on an [EvSync] event. *)
Lemma Generator_sync cfg ch c a b v s s' :
  Generator cfg ch (EvSync c a b v) s = Some s' →
  g_pc s = GSend ∧ c = ch ∧ a = TGen ∧ v = current s ∧ s' = set_g_pc GCall s.
Proof.
  unfold Generator. destruct (g_pc s); try done.
  case_decide as H; [|done]. destruct H as (-> & -> & ->). by intros [= <-].
Qed.

Lemma Worker_sync cfg i cin cout c a b v s s' :
  Worker cfg i cin cout (EvSync c a b v) s = Some s' →
  (workers s !! i = Some WRecv ∧ c = cin ∧ b = TWorker i
   ∧ s' = goto_worker i (WSend v) s)
  ∨ (workers s !! i = Some (WSend v) ∧ c = cout ∧ a = TWorker i
     ∧ s' = goto_worker i WSleep s).
Proof.
  unfold Worker. destruct (workers s !! i) as [[]|]; simpl; try done;
    (case_decide as H; [|done]).
  - destruct H as (-> & ->). intros [= <-]. by left.
  - destruct H as (-> & -> & ->). intros [= <-]. by right.
Qed.

Lemma collect_sync cfg k cout c a b v s s' :
  collect cfg k cout (EvSync c a b v) s = Some s' →
  ∃ cl, collectors s !! k = Some cl ∧
  ((cl_pc cl = CRecv ∧ c = ChOuts (cl_c cl) ∧ b = TCollector k
    ∧ s' = goto_collector k cl (CSend v) s)
   ∨ (cl_pc cl = CSend v ∧ c = cout ∧ a = TCollector k
      ∧ s' = goto_collector k cl CIncr s)).
Proof.
  unfold collect. destruct (collectors s !! k) as [cl|]; simpl; [|done].
  destruct (cl_pc cl) eqn:E; try done; (case_decide as H; [|done]).
  - destruct H as (-> & ->). intros [= <-]. exists cl. split; [done|]. by left.
  - destruct H as (-> & -> & ->). intros [= <-]. exists cl. split; [done|]. by right.
Qed.

Lemma wait_and_close_sync cout c a b v s : wait_and_close cout (EvSync c a b v) s = None.
Proof. unfold wait_and_close. by destruct (barrier s). Qed.

Lemma main_sync c a b v s s' :
  main (EvSync c a b v) s = Some s' →
  m_pc s = MRange ∧ c = ChOut ∧ b = TMain ∧ s' = tally_result v s.
Proof.
  unfold main. destruct (m_pc s); try done.
  case_decide as H; [|done]. destruct H as (-> & ->). by intros [= <-].
Qed.

Lemma can_sync_true cfg c s :
  can_sync cfg c s = true →
  ∃ ch, get_chan s c = Some ch ∧ chan_cap cfg c = 0%nat ∧ closed ch = false ∧ buf ch = [].
Proof.
  unfold can_sync. destruct (get_chan s c) as [ch|]; [|done].
  rewrite !andb_true_iff, !bool_decide_eq_true, negb_true_iff.
  intros [[? ?] ?]. by exists ch.
Qed.

Lemma step_cases_sync cfg c a b v s s' :
  step cfg (EvSync c a b v) s = Some s' → Step cfg s (EvSync c a b v) s' ∨ Abnormal cfg s.
Proof.
  unfold step. destruct (running s); [|done].
  destruct (bool_decide (a ≠ b) && can_sync cfg c s) eqn:G; [|done].
  apply andb_true_iff in G as [Hab (ch & Hch & Hcap & Hcl & Hbuf)%can_sync_true].
  apply bool_decide_eq_true in Hab.
  destruct (run_task cfg a (EvSync c a b v) s) as [s1|] eqn:E1; simpl; [|done].
  intros E2.
  destruct a; simpl in E1.
  - apply Generator_sync in E1 as (Hpc & -> & _ & -> & ->).
    destruct b; simpl in E2; try done.
    + apply Worker_sync in E2 as [(Hw & _ & _ & ->)|(_ & ? & _)]; [|done].
      left. simpl in *. simplify_eq. by econstructor.
    + apply collect_sync in E2 as (cl & _ & [(_ & ? & _)|(_ & ? & _)]); done.
    + by rewrite wait_and_close_sync in E2.
    + apply main_sync in E2 as (_ & ? & _); done.
  - apply Worker_sync in E1 as [(_ & _ & ? & _)|(Hw & -> & _ & ->)]; [by simplify_eq|].
    destruct b; simpl in E2; try done.
    + apply Generator_sync in E2 as (_ & ? & _); done.
    + apply Worker_sync in E2 as [(_ & ? & _)|(_ & _ & ? & _)]; by simplify_eq.
    + apply collect_sync in E2 as (cl & Hcl' & [(Hpc & Hc & _ & ->)|(_ & ? & _)]); [|done].
      simpl in *. destruct (decide (cl_c cl = i0 ∧ cl_i cl = i0)) as [[? ?]|];
        [|right; by eapply ab_env].
      simplify_eq. left. by econstructor.
    + by rewrite wait_and_close_sync in E2.
    + apply main_sync in E2 as (_ & ? & _); done.
  - apply collect_sync in E1 as (cl & Hcl' & [(_ & _ & ? & _)|(Hpc & -> & _ & ->)]);
      [by simplify_eq|].
    right. simpl in Hcap. eapply ab_lanes; [done|]. right; right. lia.
  - by rewrite wait_and_close_sync in E1.
  - apply main_sync in E1 as (_ & _ & ? & _). by simplify_eq.
Qed.

Ltac open_step H :=
  unfold step in H;
  match type of H with context [running ?s] =>
    destruct (running s) eqn:Hrun; [|discriminate H] end;
  simpl in H.

Ltac open_chan H :=
  unfold chan_send, chan_recv, chan_recv_closed, chan_close, get_chan, put_chan,
    incr_amount, wg_done in H; simpl in H.

Ltac split_ands :=
  repeat match goal with H : _ ∧ _ |- _ => destruct H end.

Lemma step_cases cfg e s s' :
  step cfg e s = Some s' → Step cfg s e s' ∨ Abnormal cfg s.
Proof.
  intros H. destruct e; try (by apply step_cases_sync); open_step H.
  - (* EvTick *) case_decide; simplify_eq. left. by econstructor.
  - (* EvCtxDone *)
    unfold Generator, ctx_done in H. destruct (g_pc s) eqn:Hpc; try done.
    case_bool_decide; simplify_eq. left. by econstructor.
  - (* EvDefault *)
    unfold Generator, ctx_done in H. destruct (g_pc s) eqn:Hpc; try done.
    case_bool_decide; simplify_eq. left. econstructor; [done|lia].
  - (* EvSend *)
    destruct t; simpl in H.
    + unfold Generator in H. destruct (g_pc s) eqn:Hpc; try done.
      case_decide; [|done]. split_ands; subst. open_chan H.
      destruct (closed (chIn s)) eqn:Hcl; [|done].
      right. apply ab_in_closed; congruence.
    + unfold Worker in H. destruct (workers s !! i) as [[]|] eqn:Hw; simpl in H; try done.
      case_decide; [|done]. split_ands; subst. open_chan H.
      destruct (outs s !! i) as [ch|] eqn:Ho; simpl in H; [|done].
      destruct (closed ch) eqn:Hcl; [|done].
      right. eapply ab_out_closed; eauto. congruence.
    + unfold collect in H. destruct (collectors s !! i) as [cl|] eqn:Hc; simpl in H; [|done].
      destruct (cl_pc cl) eqn:Hpc; try done.
      case_decide; [|done]. split_ands; subst. open_chan H.
      destruct (closed (chOut s)) eqn:Hcl; simpl in H.
      * right. eapply ab_result_closed; eauto; congruence.
      * case_decide; simplify_eq/=. left. rewrite <-Hcl at 1. by econstructor.
    + unfold wait_and_close in H. by destruct (barrier s).
    + unfold main in H. by destruct (m_pc s).
  - (* EvRecv *)
    destruct t; simpl in H.
    + unfold Generator in H. by destruct (g_pc s).
    + unfold Worker in H. destruct (workers s !! i) as [[]|] eqn:Hw; simpl in H; try done.
      case_decide; [|done]. split_ands; subst. open_chan H.
      destruct (buf (chIn s)) eqn:Hb; [done|]. right. apply ab_in_buffered. congruence.
    + unfold collect in H. destruct (collectors s !! i) as [cl|] eqn:Hc; simpl in H; [|done].
      destruct (cl_pc cl) eqn:Hpc; try done.
      case_decide; [|done]. split_ands; subst. open_chan H.
      destruct (outs s !! cl_c cl) as [ch|] eqn:Ho; simpl in H; [|done].
      destruct (buf ch) eqn:Hb; [done|]. right. eapply ab_out_buffered; eauto. congruence.
    + unfold wait_and_close in H. by destruct (barrier s).
    + unfold main in H. destruct (m_pc s) eqn:Hpc; try done.
      case_decide; [|done]. split_ands; subst. open_chan H.
      destruct (buf (chOut s)) eqn:Hb; simpl in H; [done|].
      case_decide; simplify_eq/=. left. by econstructor.
  - (* EvRecvClosed *)
    destruct t; simpl in H.
    + unfold Generator in H. by destruct (g_pc s).
    + unfold Worker in H. destruct (workers s !! i) as [[]|] eqn:Hw; simpl in H; try done.
      case_decide; [|done]. split_ands; subst. open_chan H.
      destruct (buf (chIn s)) eqn:Hb; [|done].
      destruct (closed (chIn s)) eqn:Hcl; simplify_eq/=. left. by econstructor.
    + unfold collect in H. destruct (collectors s !! i) as [cl|] eqn:Hc; simpl in H; [|done].
      destruct (cl_pc cl) eqn:Hpc; try done.
      case_decide; [|done]. split_ands; subst. open_chan H.
      destruct (outs s !! cl_c cl) as [ch|] eqn:Ho; simpl in H; [|done].
      destruct (buf ch) eqn:Hb; [|done].
      destruct (closed ch) eqn:Hcl; simplify_eq/=.
      destruct (decide (cl_c cl = i ∧ cl_i cl = i)) as [[Hcc Hci]|]; [|right; by eapply ab_env].
      rewrite Hcc in *. left. by econstructor.
    + unfold wait_and_close in H. by destruct (barrier s).
    + unfold main in H. destruct (m_pc s) eqn:Hpc; try done.
      case_decide; [|done]. split_ands; subst. open_chan H.
      destruct (buf (chOut s)) eqn:Hb; [|done].
      destruct (closed (chOut s)) eqn:Hcl; simplify_eq/=. left. by econstructor.
  - (* EvClose *)
    destruct t; simpl in H.
    + unfold Generator in H. destruct (g_pc s) eqn:Hpc; try done.
      case_decide; [|done]. split_ands; subst. open_chan H.
      destruct (closed (chIn s)) eqn:Hcl; simplify_eq/=.
      * right. apply ab_in_closed; congruence.
      * left. by econstructor.
    + unfold Worker in H. destruct (workers s !! i) as [[]|] eqn:Hw; simpl in H; try done.
      case_decide; [|done]. split_ands; subst. open_chan H.
      destruct (outs s !! i) as [ch|] eqn:Ho; simpl in H; [|done].
      destruct (closed ch) eqn:Hcl; simplify_eq/=.
      * right. eapply ab_out_closed; eauto. congruence.
      * left. by econstructor.
    + unfold collect in H. destruct (collectors s !! i) as [cl|] eqn:Hc; simpl in H; [|done].
      by destruct (cl_pc cl).
    + unfold wait_and_close in H. destruct (barrier s) eqn:Hpc; try done.
      case_decide; [|done]. split_ands; subst. open_chan H.
      destruct (closed (chOut s)) eqn:Hcl; simplify_eq/=.
      * right. apply ab_barrier; congruence.
      * left. by econstructor.
    + unfold main in H. by destruct (m_pc s).
  - (* EvCall *)
    unfold Generator in H. destruct (g_pc s) eqn:Hpc; try done.
    case_decide; simplify_eq. left. by econstructor.
  - (* EvAtomicAdd *)
    unfold Generator in H. destruct (g_pc s) eqn:Hpc, x; try done;
      case_decide; simplify_eq; left.
    + by econstructor.
    + by econstructor.
  - (* EvIncr *)
    destruct t; simpl in H.
    + unfold Generator in H. destruct (g_pc s) eqn:Hpc; try done.
      case_decide; simplify_eq. left. by econstructor.
    + unfold Worker in H. by destruct (workers s !! i) as [[]|].
    + unfold collect in H. destruct (collectors s !! i) as [cl|] eqn:Hc; simpl in H; [|done].
      destruct (cl_pc cl) eqn:Hpc; try done.
      case_decide; [|done]. simplify_eq.
      destruct (decide (cl_c cl = i ∧ cl_i cl = i)) as [[Hcc Hci]|]; [|right; by eapply ab_env].
      unfold incr_amount. rewrite Hci.
      destruct (amounts s !! i) as [a|] eqn:Ha.
      * left. by econstructor.
      * right. eapply ab_lanes; eauto.
    + unfold wait_and_close in H. by destruct (barrier s).
    + unfold main in H. by destruct (m_pc s).
  - (* EvSleep *)
    unfold Worker in H. destruct (workers s !! i) as [[]|] eqn:Hw; simpl in H; try done.
    case_decide; simplify_eq. left. by econstructor.
  - (* EvWake *)
    unfold Worker in H. destruct (workers s !! i) as [[]|] eqn:Hw; simpl in H; try done.
    case_decide; simplify_eq. split_ands. left. by econstructor.
  - (* EvWgDone *)
    unfold collect in H. destruct (collectors s !! i) as [cl|] eqn:Hc; simpl in H; [|done].
    destruct (cl_pc cl) eqn:Hpc; try done.
    case_decide; simplify_eq. unfold wg_done. case_decide.
    + right. eapply ab_wg; eauto. lia.
    + left. econstructor; eauto. lia.
  - (* EvWgWait *)
    unfold wait_and_close in H. destruct (barrier s) eqn:Hpc; try done.
    case_decide; simplify_eq. left. by econstructor.
  - (* EvPrint *)
    unfold main in H. destruct (m_pc s) eqn:Hpc; try done. simplify_eq. left. by econstructor.
  - (* EvValidate *)
    unfold main in H. destruct (m_pc s) eqn:Hpc; try done. simplify_eq. left. by econstructor.
Qed.


Lemma sumZ_app l1 l2 : sumZ (l1 ++ l2) = sumZ l1 + sumZ l2.
Proof. induction l1 as [|x l1 IH]; simpl; lia. Qed.

Lemma sumZ_insert (l : list Z) i x y :
  l !! i = Some x → sumZ (<[i:=y]> l) = sumZ l - x + y.
Proof.
  revert i. induction l as [|a l IH]; intros [|i] H; simplify_eq/=; [lia|].
  rewrite (IH i H). lia.
Qed.

Lemma sumZ_fmap_insert {A} (f : A → Z) (l : list A) i x y :
  l !! i = Some x → sumZ (f <$> <[i:=y]> l) = sumZ (f <$> l) - f x + f y.
Proof.
  intros H. rewrite list_fmap_insert. apply sumZ_insert.
  by rewrite list_lookup_fmap, H.
Qed.

Lemma sumZ_nonneg (l : list Z) : Forall (λ x, 0 ≤ x) l → 0 ≤ sumZ l.
Proof. induction 1; simpl; lia. Qed.

Lemma sumZ_lookup_le (l : list Z) i x :
  Forall (λ x, 0 ≤ x) l → l !! i = Some x → x ≤ sumZ l.
Proof.
  intros Hl. revert i. induction Hl as [|a l Ha Hl IH]; intros [|i] H; simplify_eq/=.
  - pose proof (sumZ_nonneg l Hl). lia.
  - specialize (IH i H). lia.
Qed.

Lemma sumZ_replicate n x : sumZ (replicate n x) = Z.of_nat n * x.
Proof. induction n as [|n IH]; [done|]. rewrite replicate_S. simpl sumZ. lia. Qed.

Lemma sumZ_const {A} (f : A → Z) (l : list A) x :
  (∀ a, a ∈ l → f a = x) → sumZ (f <$> l) = Z.of_nat (length l) * x.
Proof.
  induction l as [|a l IH]; intros H; [done|]. 
  rewrite fmap_cons. simpl sumZ. rewrite IH, (H a); [|left|].
  - simpl length. lia.
  - intros b Hb. apply H. by right.
Qed.

Lemma live_nonneg (l : list collector) : Forall (λ x, 0 ≤ x) (live <$> l).
Proof.
  apply Forall_fmap, Forall_forall. intros cl _. unfold live. simpl. destruct (cl_pc cl); lia.
Qed.

Lemma wf_init cfg : wf cfg (init cfg).
Proof.
  constructor; simpl; try done.
  - apply length_replicate.
  - apply length_replicate.
  - by rewrite length_fmap, length_seq.
  - apply length_replicate.
  - intros i ch [-> _]%lookup_replicate. done.
  - intros i ch [-> _]%lookup_replicate. done.
  - intros k cl. rewrite list_lookup_fmap. intros H.
    destruct (seq 0 (NumOut cfg) !! k) as [j|] eqn:E; simplify_eq/=.
    apply lookup_seq in E as [-> _]. done.
  - rewrite (sumZ_const _ _ 1); [rewrite length_fmap, length_seq; lia|].
    intros cl (j & -> & _)%list_elem_of_fmap. done.
Qed.

Lemma wf_live cfg s k cl :
  wf cfg s → collectors s !! k = Some cl → live cl ≤ wg s.
Proof.
  intros Hwf Hk. rewrite (wf_wg _ _ Hwf).
  apply (sumZ_lookup_le _ k); [apply live_nonneg|].
  by rewrite list_lookup_fmap, Hk.
Qed.

Lemma wf_not_abnormal cfg s : wf cfg s → ¬ Abnormal cfg s.
Proof.
  intros Hwf Hab. destruct Hab.
  - by apply wf_in_closed in Hwf.
  - by apply wf_in_buf in Hwf.
  - eapply wf_outs_closed in Hwf; eauto.
  - eapply wf_outs_buf in Hwf; eauto.
  - eapply wf_env in Hwf; eauto. destruct Hwf as (? & ? & ?). by destruct H0.
  - apply lookup_lt_Some in H.
    rewrite (wf_collectors_len _ _ Hwf) in H.
    destruct H0 as [H0|[H0|H0]]; [apply lookup_ge_None in H0|apply lookup_ge_None in H0|].
    + rewrite (wf_outs_len _ _ Hwf) in H0. lia.
    + rewrite (wf_amounts_len _ _ Hwf) in H0. lia.
    + lia.
  - pose proof (wf_live _ _ _ _ Hwf H) as Hl.
    rewrite (wf_barrier _ _ Hwf) in Hl.
    + unfold live in Hl. destruct (cl_pc cl); try done; lia.
    + rewrite (wf_out_closed _ _ Hwf); done.
  - pose proof (wf_live _ _ _ _ Hwf H) as Hl.
    unfold live in Hl. rewrite H0 in Hl. lia.
  - by apply wf_out_closed in Hwf.
Qed.


(** Lookups in updated lanes. *)
Ltac lane_lt := solve [ eapply lookup_lt_Some; eassumption | lia ].

Ltac lanes :=
  repeat match goal with
  | H : context [<[?i:=_]> _ !! ?j] |- _ =>
      first
        [ rewrite list_lookup_insert_eq in H by lane_lt
        | rewrite list_lookup_insert_ne in H by congruence
        | destruct (decide (i = j)) as [->|?] ]
  | |- context [<[?i:=_]> _ !! ?j] =>
      first
        [ rewrite list_lookup_insert_eq by lane_lt
        | rewrite list_lookup_insert_ne by congruence
        | destruct (decide (i = j)) as [->|?] ]
  end.

Lemma wf_step cfg s e s' : wf cfg s → Step cfg s e s' → wf cfg s'.
Proof.
  intros Hwf Hs. pose proof (λ k cl, wf_live cfg s k cl Hwf) as Hlive. destruct Hwf.
  destruct Hs; constructor; simpl;
    rewrite ?length_insert; try done; try congruence.
  all: try (intros; lanes; simplify_eq/=; eauto; congruence).
  all: try (erewrite sumZ_fmap_insert by eassumption; unfold live in *; simpl;
            repeat match goal with H : cl_pc _ = _ |- _ => rewrite H end; lia).
  all: try (intros; lanes; simplify_eq/=; eapply wf_env0; eauto).
  all: intros; lanes; simplify_eq/=;
    try match goal with H : closed (chIn _) = true |- _ => apply wf_in_closed0 in H end;
    try match goal with H : closed (chOut _) = true |- _ => apply wf_out_closed0 in H end;
    try match goal with Ho : outs _ !! _ = Some ?ch, Hc : closed ?ch = true |- _ =>
          pose proof (wf_outs_closed0 _ _ Ho Hc) end;
    try (rewrite wf_barrier0 in * by congruence);
    try congruence; try lia; eauto.
Qed.

(** Every state of a run is well formed, so only the transitions of
    [Step] happen. *)
Lemma exec_snoc cfg tr e s :
  exec cfg (tr ++ [e]) s = exec cfg tr s ≫= step cfg e.
Proof.
  revert s. induction tr as [|a tr IH]; intros s; simpl.
  - by destruct (step cfg e s).
  - destruct (step cfg a s); simpl; auto.
Qed.

Lemma exec_app cfg tr1 tr2 s :
  exec cfg (tr1 ++ tr2) s = exec cfg tr1 s ≫= exec cfg tr2.
Proof.
  revert s. induction tr1 as [|a tr IH]; intros s; simpl; [done|].
  destruct (step cfg a s); simpl; auto.
Qed.

Lemma runs_nil cfg : runs cfg [] (init cfg).
Proof. done. Qed.

Lemma runs_snoc cfg tr e s s' :
  runs cfg tr s → step cfg e s = Some s' → runs cfg (tr ++ [e]) s'.
Proof. unfold runs. intros H1 H2. by rewrite exec_snoc, H1. Qed.

Lemma runs_snoc_inv cfg tr e s' :
  runs cfg (tr ++ [e]) s' → ∃ s, runs cfg tr s ∧ step cfg e s = Some s'.
Proof.
  unfold runs. rewrite exec_snoc.
  destruct (exec cfg tr (init cfg)) as [s|]; [|done]. eauto.
Qed.

Lemma runs_wf cfg tr s : runs cfg tr s → wf cfg s.
Proof.
  revert s. induction tr as [|e tr IH] using rev_ind; intros s Hr.
  - unfold runs in Hr. simplify_eq/=. apply wf_init.
  - apply runs_snoc_inv in Hr as (s0 & Hr & Hs).
    specialize (IH _ Hr). apply step_cases in Hs as [Hs|Hab].
    + by eapply wf_step.
    + by apply wf_not_abnormal in Hab.
Qed.

Lemma step_view cfg tr s e s' :
  runs cfg tr s → step cfg e s = Some s' → Step cfg s e s'.
Proof.
  intros Hr%runs_wf [Hs|Hab]%step_cases; [done|].
  by apply wf_not_abnormal in Hab.
Qed.

(** Induction over runs, one transition of [Step] at a time. *)
Lemma runs_ind cfg (P : list event → state → Prop) :
  P [] (init cfg) →
  (∀ tr s e s', runs cfg tr s → wf cfg s → running s = true → P tr s →
                Step cfg s e s' → P (tr ++ [e]) s') →
  ∀ tr s, runs cfg tr s → P tr s.
Proof.
  intros H0 HS tr. induction tr as [|e tr IH] using rev_ind; intros s Hr.
  - unfold runs in Hr. by simplify_eq/=.
  - apply runs_snoc_inv in Hr as (s0 & Hr & Hs).
    eapply HS; eauto using runs_wf, step_view, step_running.
Qed.

(** ** Arithmetic of [wrap64] *)

Lemma wrap64_range z : int64_range (wrap64 z).
Proof. unfold int64_range, wrap64. pose proof (Z.mod_pos_bound (z + 2 ^ 63) (2 ^ 64)). lia. Qed.

Lemma wrap64_id z : int64_range z → wrap64 z = z.
Proof. unfold int64_range, wrap64. intros H. rewrite Z.mod_small; lia. Qed.

Lemma wrap64_spec z : ∃ k, wrap64 z = z + k * 2 ^ 64.
Proof.
  exists (- ((z + 2 ^ 63) / 2 ^ 64)). unfold wrap64.
  pose proof (Z.div_mod (z + 2 ^ 63) (2 ^ 64)). lia.
Qed.

Lemma wrap64_eq a b k : a = b + k * 2 ^ 64 → wrap64 a = wrap64 b.
Proof.
  intros ->. unfold wrap64.
  replace (b + k * 2 ^ 64 + 2 ^ 63) with (b + 2 ^ 63 + k * 2 ^ 64) by lia.
  by rewrite Z_mod_plus_full.
Qed.

Lemma wrap64_add_l a b : wrap64 (wrap64 a + b) = wrap64 (a + b).
Proof. destruct (wrap64_spec a) as [k ->]. apply (wrap64_eq _ _ k). lia. Qed.

Lemma wrap64_add_r a b : wrap64 (a + wrap64 b) = wrap64 (a + b).
Proof. destruct (wrap64_spec b) as [k ->]. apply (wrap64_eq _ _ k). lia. Qed.

Lemma wrap64_sub_l a b : wrap64 (wrap64 a - b) = wrap64 (a - b).
Proof. destruct (wrap64_spec a) as [k ->]. apply (wrap64_eq _ _ k). lia. Qed.

Lemma wrap64_sub_r a b : wrap64 (a - wrap64 b) = wrap64 (a - b).
Proof. destruct (wrap64_spec b) as [k ->]. apply (wrap64_eq _ _ (- k)). lia. Qed.

Lemma wrap64_cong a b d : wrap64 a = wrap64 b → wrap64 (a + d) = wrap64 (b + d).
Proof. intros H. by rewrite <-(wrap64_add_l a), H, wrap64_add_l. Qed.

Lemma wrap64_wrap64 a : wrap64 (wrap64 a) = wrap64 a.
Proof. apply wrap64_id, wrap64_range. Qed.

(** ** Projections of a run, one event at a time *)

Lemma sumZ_perm : Proper ((≡ₚ) ==> (=)) sumZ.
Proof. intros l1 l2 H. induction H; simpl; lia. Qed.

#[local] Existing Instance sumZ_perm.

Lemma hold_insert {A} (f : A → list Z) (l : list A) i x y :
  l !! i = Some x → f x ++ concat (f <$> <[i:=y]> l) ≡ₚ f y ++ concat (f <$> l).
Proof.
  revert i. induction l as [|a l IH]; intros [|i] H; simplify_eq/=.
  - solve_Permutation.
  - specialize (IH i H). rewrite (assoc_L (++)), (comm (++) (f x)), <-(assoc_L (++)), IH.
    solve_Permutation.
Qed.

Lemma hold_insert_same {A} (f : A → list Z) (l : list A) i x y :
  l !! i = Some x → f x = f y → concat (f <$> <[i:=y]> l) = concat (f <$> l).
Proof.
  intros H Hf. rewrite list_fmap_insert, <-Hf. f_equal. apply list_insert_id.
  by rewrite list_lookup_fmap, H.
Qed.

Lemma hold_insert_put {A} (f : A → list Z) (l : list A) i x y :
  l !! i = Some x → f x = [] → concat (f <$> <[i:=y]> l) ≡ₚ f y ++ concat (f <$> l).
Proof. intros H Hf. rewrite <-(hold_insert f l i x y H), Hf. done. Qed.

Lemma hold_insert_take {A} (f : A → list Z) (l : list A) i x y :
  l !! i = Some x → f y = [] → concat (f <$> l) ≡ₚ f x ++ concat (f <$> <[i:=y]> l).
Proof. intros H Hf. rewrite (hold_insert f l i x y H), Hf. done. Qed.

Lemma published_snoc tr e :
  published (tr ++ [e])
  = published tr ++ match e with EvSync ChIn _ _ v => [v] | _ => [] end.
Proof.
  unfold published. rewrite omap_app. f_equal.
  destruct e as [| | |[]| | | | | | | | | | | | |]; done.
Qed.

Lemma received_snoc i tr e :
  received i (tr ++ [e])
  = received i tr ++ match e with
                     | EvSync ChIn _ (TWorker j) v => if decide (j = i) then [v] else []
                     | _ => []
                     end.
Proof.
  unfold received. rewrite omap_app. f_equal.
  destruct e as [| | |[] ? []| | | | | | | | | | | | |]; simpl; try done.
  by case_decide.
Qed.

Lemma forwarded_snoc i tr e :
  forwarded i (tr ++ [e])
  = forwarded i tr ++ match e with
                      | EvSync (ChOuts j) _ _ v => if decide (j = i) then [v] else []
                      | _ => []
                      end.
Proof.
  unfold forwarded. rewrite omap_app. f_equal.
  destruct e as [| | |[]| | | | | | | | | | | | |]; simpl; try done.
  by case_decide.
Qed.

Lemma collected_snoc tr e :
  collected (tr ++ [e])
  = collected tr ++ match e with EvSend ChOut _ v => [v] | _ => [] end.
Proof.
  unfold collected. rewrite omap_app. f_equal.
  destruct e as [| | | |[]| | | | | | | | | | | |]; done.
Qed.

Lemma results_snoc tr e :
  results (tr ++ [e])
  = results tr ++ match e with EvRecv ChOut _ v => [v] | _ => [] end.
Proof.
  unfold results. rewrite omap_app. f_equal.
  destruct e as [| | | | |[]| | | | | | | | | | |]; done.
Qed.

Lemma clock_snoc tr e :
  clock (tr ++ [e]) = clock tr + match e with EvTick d => d | _ => 0 end.
Proof.
  unfold clock. rewrite omap_app, sumZ_app. f_equal.
  destruct e; simpl; lia.
Qed.

Ltac snoc_events :=
  rewrite ?published_snoc, ?received_snoc, ?forwarded_snoc, ?collected_snoc,
    ?results_snoc, ?clock_snoc;
  unfold untallied_sum, untallied_count, in_flight, goto_worker, goto_collector,
    tally_result in *;
  simpl; rewrite ?app_nil_r, ?Z.add_0_r.

Lemma accounting_init cfg : accounting [] (init cfg).
Proof.
  constructor; simpl; try done.
  - unfold in_flight. simpl.
    assert (concat (w_hold <$> replicate (NumOut cfg) WRecv) = []) as ->.
    { induction (NumOut cfg); [done|]. by rewrite replicate_S. }
    assert (∀ a n, concat (c_hold <$> ((λ k, Collector k k k CRecv) <$> seq a n)) = [])
      as ->; [|done].
    intros a n. revert a. induction n as [|n IH]; intros a; [done|]. simpl. apply IH.
  - assert (∀ a n, sumZ (uncounted <$> ((λ k, Collector k k k CRecv) <$> seq a n)) = 0)
      as ->.
    { intros a n. revert a. induction n as [|n IH]; intros a; [done|]. simpl. apply IH. }
    rewrite sumZ_replicate. f_equal. lia.
Qed.

Lemma accounting_step cfg tr s e s' :
  wf cfg s → accounting tr s → Step cfg s e s' → accounting (tr ++ [e]) s'.
Proof.
  intros Hwf [Hflow Hfifo Hcount Hsum HiS HiC Ham] Hs.
  destruct Hs; constructor; snoc_events; try done.
  all: repeat match goal with H : g_pc _ = _ |- _ => rewrite H in * end.
  all: try (intros; rewrite ?HiC by done; rewrite ?HiS; rewrite ?length_app;
            rewrite ?sumZ_app; simpl; rewrite ?wrap64_add_l; f_equal; lia).
  all: try (intros Hx; first [ by destruct (Hx _) | apply HiC; congruence ]).
  all: try (rewrite Hfifo;
            repeat match goal with H : buf _ = _ |- _ => rewrite H end;
            by rewrite <-?(assoc_L (++))).
  all: try (rewrite ?Hcount, ?Hsum, ?length_app, ?sumZ_app, ?wrap64_add_l; simpl;
            f_equal; lia).
  all: try (erewrite sumZ_fmap_insert by eassumption; unfold uncounted in *; simpl;
            repeat match goal with H : cl_pc _ = _ |- _ => rewrite H end;
            rewrite ?length_app; simpl;
            first
              [ rewrite Ham; f_equal; lia
              | erewrite sumZ_insert by eassumption;
                rewrite wrap64_add_r;
                match goal with |- wrap64 ?x = _ =>
                  replace x with (sumZ (amounts s) + 1) by lia end;
                rewrite (wrap64_cong _ _ 1 Ham); f_equal; lia ]).
  - (* publish *)
    rewrite (hold_insert_put w_hold _ _ _ _ H0) by done. rewrite Hflow.
    simpl. solve_Permutation.
  - by rewrite (hold_insert_same w_hold _ _ _ _ H).
  - (* forward *)
    rewrite Hflow, (hold_insert_take w_hold _ _ _ WSleep H) by done.
    rewrite (hold_insert_put c_hold _ _ _
               (Collector (cl_c cl) (cl_in cl) (cl_i cl) (CSend v)) H0)
      by (unfold c_hold; by rewrite H1).
    simpl. solve_Permutation.
  - by rewrite (hold_insert_same w_hold _ _ _ _ H).
  - by rewrite (hold_insert_same w_hold _ _ _ _ H).
  - by rewrite (hold_insert_same w_hold _ _ _ _ H).
  - by rewrite (hold_insert_same c_hold _ _ _ _ H) by (unfold c_hold; by rewrite H0).
  - (* collect *)
    rewrite Hflow.
    rewrite (hold_insert_take c_hold _ _ _
               (Collector (cl_c cl) (cl_in cl) (cl_i cl) CIncr) H) by done.
    unfold c_hold at 1. rewrite H0. solve_Permutation.
  - by rewrite (hold_insert_same c_hold _ _ _ _ H) by (unfold c_hold; by rewrite H0).
  - by rewrite (hold_insert_same c_hold _ _ _ _ H) by (unfold c_hold; by rewrite H0).
  - intros Hx. by destruct (Hx (validate (inputSum s) (sum s) (inputCount s) (count s) (amounts s)).1).
Qed.

Lemma runs_accounting cfg tr s : runs cfg tr s → accounting tr s.
Proof.
  revert tr s. apply runs_ind; [apply accounting_init|].
  eauto using accounting_step.
Qed.

(** ** The shutdown cascade *)

Lemma cascade_init cfg : cascade cfg (init cfg).
Proof.
  constructor; simpl; try done.
  - intros k cl ch. rewrite list_lookup_fmap. intros H [Hf|Hf];
      destruct (seq 0 (NumOut cfg) !! k); simplify_eq/=.
  - intros i pc [-> _]%lookup_replicate [?|?]; done.
  - intros [?|?]; done.
Qed.

Lemma cascade_step cfg s e s' :
  wf cfg s → cascade cfg s → Step cfg s e s' → cascade cfg s'.
Proof.
  intros Hwf [Hm Hc Hw Hg] Hs.
  unfold collector_finished, worker_finished, untallied_count in *.
  destruct Hs; constructor; simpl; try done.
  all: try (intros [?|?]; done).
  all: try (intros Hx; destruct Hm as [? ?]; [congruence|]; split; congruence).
  all: try (intros _; apply lookup_lt_Some in H0;
            rewrite (wf_workers_len _ _ Hwf) in H0; lia).
  all: try (intros _; apply Hg; rewrite H; by auto).
  all: try (intros j; intros; unfold collector_finished, worker_finished in *;
            lanes; simplify_eq/=;
            try match goal with H : _ ∨ _ |- _ => destruct H; simplify_eq/= end;
            eauto; congruence).
Qed.

Lemma runs_cascade cfg tr s : runs cfg tr s → cascade cfg s.
Proof.
  revert tr s. apply runs_ind; [apply cascade_init|].
  eauto using cascade_step.
Qed.

Lemma concat_hold_nil {A} (f : A → list Z) (l : list A) :
  (∀ i x, l !! i = Some x → f x = []) → concat (f <$> l) = [].
Proof.
  induction l as [|a l IH]; intros H; [done|].
  rewrite fmap_cons. simpl. rewrite (H 0%nat a), IH; [done| |done].
  intros i x Hi. by apply (H (S i)).
Qed.

(** Once the barrier has closed chOut every goroutine upstream is done. *)
Lemma closed_result_done cfg s :
  wf cfg s → cascade cfg s → closed (chOut s) = true →
  (∀ k cl, collectors s !! k = Some cl → cl_pc cl = CDone)
  ∧ (∀ i pc, workers s !! i = Some pc → pc = WDone)
  ∧ (∀ i ch, outs s !! i = Some ch → closed ch = true)
  ∧ ((0 < NumOut cfg)%nat → closed (chIn s) = true ∧ g_pc s = GDone).
Proof.
  intros Hwf Hc Hcl.
  assert (∀ k cl, collectors s !! k = Some cl → cl_pc cl = CDone) as Hcd.
  { intros k cl Hk. pose proof (wf_live _ _ _ _ Hwf Hk) as Hl.
    rewrite (wf_barrier _ _ Hwf) in Hl by (by rewrite (wf_out_closed _ _ Hwf)).
    unfold live in Hl. destruct (cl_pc cl); try done; lia. }
  assert (∀ i ch, outs s !! i = Some ch → closed ch = true) as Hoc.
  { intros i ch Hi.
    destruct (lookup_lt_is_Some_2 (collectors s) i) as [cl Hk].
    { rewrite (wf_collectors_len _ _ Hwf), <-(wf_outs_len _ _ Hwf).
      by eapply lookup_lt_Some. }
    eapply (casc_collector _ _ Hc); eauto. right. eauto. }
  assert (∀ i pc, workers s !! i = Some pc → pc = WDone) as Hwd.
  { intros i pc Hi.
    destruct (lookup_lt_is_Some_2 (outs s) i) as [ch Hk].
    { rewrite (wf_outs_len _ _ Hwf), <-(wf_workers_len _ _ Hwf).
      by eapply lookup_lt_Some. }
    pose proof (wf_outs_closed _ _ Hwf _ _ Hk (Hoc _ _ Hk)). congruence. }
  repeat split; try done.
  - destruct (lookup_lt_is_Some_2 (workers s) 0%nat) as [pc Hk].
    { rewrite (wf_workers_len _ _ Hwf). lia. }
    eapply (casc_worker _ _ Hc); eauto. right. eauto.
  - apply (wf_in_closed _ _ Hwf).
    destruct (lookup_lt_is_Some_2 (workers s) 0%nat) as [pc Hk].
    { rewrite (wf_workers_len _ _ Hwf). lia. }
    eapply (casc_worker _ _ Hc); eauto. right. eauto.
Qed.

Lemma report_drained cfg s :
  wf cfg s → cascade cfg s → m_pc s ≠ MRange → drained s.
Proof.
  intros Hwf Hc Hm. destruct (casc_main _ _ Hc Hm) as [Hcl Hbuf].
  destruct (closed_result_done _ _ Hwf Hc Hcl) as (Hcd & Hwd & _ & Hg).
  repeat split; try done.
  - destruct (NumOut cfg) as [|n] eqn:HN.
    + pose proof (casc_gen _ _ Hc) as Hgen. rewrite HN in Hgen.
      unfold untallied_count, gen_idle in *.
      destruct (g_pc s); try done; exfalso; (assert (0 < 0)%nat; [|lia]); auto.
    + unfold gen_idle. destruct Hg as [_ ->]; [lia|]. done.
  - unfold in_flight. rewrite !concat_hold_nil; [done| |].
    + intros i cl Hi. unfold c_hold. by rewrite (Hcd _ _ Hi).
    + intros i pc Hi. by rewrite (Hwd _ _ Hi).
Qed.

(** ** Timing *)

Lemma sumZ_seq_ext (f g : nat → Z) a n :
  (∀ j, (a ≤ j < a + n)%nat → g j = f j) → sumZ (g <$> seq a n) = sumZ (f <$> seq a n).
Proof.
  revert a. induction n as [|n IH]; intros a H; [done|]. simpl.
  rewrite H, IH; [done| |lia]. intros j Hj. apply H. lia.
Qed.

Lemma sumZ_seq_bump (f g : nat → Z) a n i :
  (a ≤ i < a + n)%nat → (∀ j, j ≠ i → g j = f j) → g i = f i + 1 →
  sumZ (g <$> seq a n) = sumZ (f <$> seq a n) + 1.
Proof.
  revert a. induction n as [|n IH]; intros a Hi Hne He; [lia|].
  rewrite <-cons_seq, !fmap_cons. change (g a + sumZ (g <$> seq (S a) n)
    = f a + sumZ (f <$> seq (S a) n) + 1).
  destruct (decide (a = i)) as [->|Hai].
  - rewrite He, (sumZ_seq_ext f g (S i) n); [lia|]. intros j Hj. apply Hne. lia.
  - rewrite (Hne a), (IH (S a)) by (done || lia). lia.
Qed.

Lemma sumZ_seq_le (f : nat → Z) a n k :
  (∀ j, (a ≤ j < a + n)%nat → f j ≤ k) → sumZ (f <$> seq a n) ≤ Z.of_nat n * k.
Proof.
  revert a. induction n as [|n IH]; intros a H; [simpl; lia|].
  rewrite <-cons_seq, fmap_cons. change (f a + sumZ (f <$> seq (S a) n) ≤ Z.of_nat (S n) * k).
  assert (sumZ (f <$> seq (S a) n) ≤ Z.of_nat n * k) by (apply IH; intros; apply H; lia).
  assert (f a ≤ k) by (apply H; lia). lia.
Qed.

Lemma lane_quota_ok cfg r t :
  0 < pause cfg → (r - 1) * pause cfg ≤ t → t < timeout cfg → r ≤ lane_quota cfg.
Proof.
  intros Hp Hr Ht. unfold lane_quota.
  assert (r - 1 ≤ (timeout cfg - 1) / pause cfg); [|lia].
  apply Z.div_le_lower_bound; lia.
Qed.

Lemma on_time_before cfg r t pc :
  0 < pause cfg → on_time cfg r t pc → (r - 1) * pause cfg ≤ t.
Proof. unfold on_time. destruct pc; lia. Qed.

Lemma sum_received_snoc n tr e :
  sum_received n (tr ++ [e])
  = sum_received n tr
    + match e with
      | EvSync ChIn _ (TWorker i) _ => if decide (i < n)%nat then 1 else 0
      | _ => 0
      end.
Proof.
  unfold sum_received.
  assert (∀ i, (i < n)%nat →
    sumZ ((λ j, Z.of_nat (length (received j tr ++ if decide (i = j) then [0] else [])))
          <$> seq 0 n)
    = sumZ ((λ j, Z.of_nat (length (received j tr))) <$> seq 0 n) + 1) as Hin.
  { intros i Hi. apply (sumZ_seq_bump _ _ _ _ i); [lia| |].
    - intros j Hj. rewrite decide_False by done. by rewrite app_nil_r.
    - rewrite decide_True by done. rewrite length_app. simpl. lia. }
  destruct e as [| | |[] ? []| | | | | | | | | | | | |];
    try (rewrite Z.add_0_r; apply sumZ_seq_ext; intros j _;
         by rewrite received_snoc, app_nil_r).
  case_decide as Hi.
  - rewrite <-(Hin i Hi). apply sumZ_seq_ext. intros j _. rewrite received_snoc.
    rewrite !length_app. by repeat case_decide.
  - rewrite Z.add_0_r. apply sumZ_seq_ext. intros j Hj. rewrite received_snoc.
    rewrite decide_False by lia. by rewrite app_nil_r.
Qed.

Lemma lane_quota_nonneg cfg : 0 ≤ lane_quota cfg.
Proof. unfold lane_quota. lia. Qed.

Lemma emit_bound_pos cfg : 0 < emit_bound cfg.
Proof.
  unfold emit_bound. pose proof (lane_quota_nonneg cfg).
  assert (0 ≤ Z.of_nat (NumOut cfg) * lane_quota cfg) by (apply Z.mul_nonneg_nonneg; lia).
  lia.
Qed.

Lemma timing_init cfg : timing cfg [] (init cfg).
Proof.
  constructor; simpl; try done.
  - intros i pc [-> _]%lookup_replicate. simpl. lia.
  - unfold sum_received. change (published []) with (@nil Z).
    rewrite (sumZ_const _ _ 0); [simpl; lia|]. done.
  - change (published []) with (@nil Z). pose proof (emit_bound_pos cfg). simpl. lia.
Qed.

Lemma timing_step cfg tr s e s' :
  0 < pause cfg → wf cfg s → timing cfg tr s → Step cfg s e s' → timing cfg (tr ++ [e]) s'.
Proof.
  intros Hp Hwf [Hclock Hlane Hquota Htotal Hbound] Hs.
  assert (∀ i, (i < NumOut cfg)%nat → now s < timeout cfg →
               Z.of_nat (length (received i tr)) ≤ lane_quota cfg) as Hbefore.
  { intros i Hi Hnow.
    destruct (lookup_lt_is_Some_2 (workers s) i) as [pc Hpc].
    { by rewrite (wf_workers_len _ _ Hwf). }
    eapply lane_quota_ok; eauto using on_time_before. }
  destruct Hs; constructor; rewrite ?sum_received_snoc; snoc_events; try done;
    try lia; try congruence.
  all: intros; snoc_events; rewrite ?length_app, ?app_nil_r; simpl.
  all: try (by apply Hquota).
  all: try (by apply Hbefore).
  all: try match goal with
       | H : workers _ !! ?i = Some _ |- context [decide (?i < NumOut _)%nat] =>
           rewrite decide_True by
             (rewrite <-(wf_workers_len _ _ Hwf); by eapply lookup_lt_Some); lia
       end.
  all: try (lanes; simplify_eq/=; repeat case_decide; simplify_eq/=;
            repeat match goal with
                   | Hl : workers _ !! _ = Some _ |- _ => apply Hlane in Hl
                   end;
            unfold on_time in *; rewrite ?length_app, ?app_nil_r; simpl;
            try match goal with |- context [match ?pc with _ => _ end] => destruct pc end;
            lia).
  (* the publication that may pass the deadline *)
  assert (sum_received (NumOut cfg) tr ≤ Z.of_nat (NumOut cfg) * lane_quota cfg).
  { apply sumZ_seq_le. intros j Hj. apply Hquota; [done|lia]. }
  unfold emit_bound. lia.
Qed.

Lemma runs_timing cfg tr s : 0 < pause cfg → runs cfg tr s → timing cfg tr s.
Proof.
  intros Hp. revert tr s. apply runs_ind; [apply timing_init|].
  eauto using timing_step.
Qed.

(** The generator publishes at most [emit_bound] values. *)
Lemma published_bound cfg tr s :
  0 < pause cfg → runs cfg tr s → Z.of_nat (length (published tr)) ≤ emit_bound cfg.
Proof. intros Hp Hr. by apply (tm_bound _ _ _ (runs_timing _ _ _ Hp Hr)). Qed.

Lemma task_go_no_overflow : no_overflow task_go.
Proof. by vm_compute. Qed.

(** ** The generator's sequence *)

Lemma gen_history_snoc tr e :
  gen_history (tr ++ [e]) = gen_history tr ++ match gen_view e with Some o => [o] | None => [] end.
Proof. unfold gen_history. rewrite omap_app. simpl. by destruct (gen_view e). Qed.

Lemma naturals_S n : naturals (S n) = naturals n ++ [Z.of_nat n + 1].
Proof. unfold naturals. rewrite seqZ_S. f_equal. f_equal. lia. Qed.

Lemma length_naturals n : length (naturals n) = n.
Proof. unfold naturals. rewrite length_seqZ. lia. Qed.

Lemma length_rounds (l : list Z) : length (l ≫= gen_round) = (3 * length l)%nat.
Proof. induction l as [|x l IH]; [done|]. rewrite bind_cons, length_app, IH. simpl. lia. Qed.

Lemma rounds_snoc (l : list Z) v : (l ++ [v]) ≫= gen_round = (l ≫= gen_round) ++ gen_round v.
Proof. rewrite bind_app, bind_cons. by destruct (l ≫= gen_round). Qed.

Lemma rounds_drop (l : list Z) v k :
  (k ≤ 3)%nat →
  take (length ((l ++ [v]) ≫= gen_round) - k) ((l ++ [v]) ≫= gen_round)
  = (l ≫= gen_round) ++ take (3 - k) (gen_round v).
Proof.
  intros Hk. rewrite rounds_snoc, length_app.
  change (length (gen_round v)) with 3%nat.
  rewrite take_app_ge by lia. f_equal. f_equal. lia.
Qed.

Lemma rounds_all (l : list Z) :
  take (length (l ≫= gen_round) - 0) (l ≫= gen_round) = l ≫= gen_round.
Proof. rewrite Nat.sub_0_r. apply firstn_all. Qed.

Lemma sequence_init cfg : sequence [] (init cfg).
Proof. constructor; try done. intros i [?|?]; done. Qed.

Lemma sequence_step cfg tr s e s' :
  sequence tr s → Step cfg s e s' → sequence (tr ++ [e]) s'.
Proof.
  intros [Hpub Hcur Harg Hlast Hhist] Hs.
  destruct Hs; constructor; rewrite ?gen_history_snoc; snoc_events;
    unfold next_offset, gen_missing in *; simpl; rewrite ?app_nil_r; try done.
  all: repeat match goal with H : g_pc _ = _ |- _ => rewrite H in * end.
  all: try (intros ? [?|?]; simplify_eq/=; eauto; done).
  all: try (rewrite Hcur, ?wrap64_add_l; f_equal; lia).
  all: try (intros _; by eauto).
  all: try done.
  all: try (rewrite Hcur at 1; rewrite length_app; f_equal; simpl; lia).
  - (* publish: the next natural number *)
    rewrite length_app, Nat.add_1_r, naturals_S, fmap_app, <-Hpub, Hcur. done.
  - rewrite rounds_drop by lia. by rewrite Hhist, rounds_all.
  - (* call: with the value just published *)
    destruct Hlast as [before Hb]; [done|]. rewrite Hhist, Hb, !rounds_drop by lia.
    by rewrite <-(assoc_L (++)).
  - (* increment: the turn is complete *)
    destruct Hlast as [before Hb]; [done|]. rewrite Hhist, Hb, rounds_all, rounds_drop by lia.
    rewrite rounds_snoc. by rewrite <-(assoc_L (++)).
Qed.

Lemma runs_sequence cfg tr s : runs cfg tr s → sequence tr s.
Proof.
  revert tr s. apply runs_ind; [apply sequence_init|].
  eauto using sequence_step.
Qed.

(** Below 2^63 the published values are the natural numbers themselves. *)
Lemma wrap64_naturals n : Z.of_nat n < 2 ^ 63 → wrap64 <$> naturals n = naturals n.
Proof.
  intros Hn. induction n as [|n IH]; [done|].
  rewrite naturals_S, fmap_app, IH by lia. f_equal. simpl. f_equal.
  apply wrap64_id. unfold int64_range. lia.
Qed.

Lemma sumZ_naturals n : 2 * sumZ (naturals n) = Z.of_nat n * (Z.of_nat n + 1).
Proof.
  induction n as [|n IH]; [done|].
  rewrite naturals_S, sumZ_app. simpl sumZ. lia.
Qed.

Lemma emit_bound_int64 cfg : no_overflow cfg → emit_bound cfg < 2 ^ 63.
Proof. intros (_ & H & _). lia. Qed.

Lemma published_naturals cfg tr s :
  no_overflow cfg → runs cfg tr s → published tr = naturals (length (published tr)).
Proof.
  intros Hno Hr. rewrite (sq_published _ _ (runs_sequence _ _ _ Hr)) at 1.
  apply wrap64_naturals.
  pose proof (published_bound _ _ _ (proj1 Hno) Hr). pose proof (emit_bound_int64 _ Hno). lia.
Qed.

(** ** Lanes *)

Lemma collected_by_snoc k tr e :
  collected_by k (tr ++ [e])
  = collected_by k tr ++ match e with
                         | EvSend ChOut (TCollector j) v => if decide (j = k) then [v] else []
                         | _ => []
                         end.
Proof.
  unfold collected_by. rewrite omap_app. f_equal.
  destruct e as [| | | |[] []| | | | | | | | | | | |]; simpl; try done.
  by case_decide.
Qed.

Lemma lane_flow_init cfg : lane_flow [] (init cfg).
Proof.
  constructor; simpl.
  - by intros i pc [-> _]%lookup_replicate.
  - intros i cl. rewrite list_lookup_fmap. intros H.
    destruct (seq 0 (NumOut cfg) !! i); by simplify_eq/=.
  - intros i cl a. rewrite list_lookup_fmap. intros H [-> _]%lookup_replicate.
    destruct (seq 0 (NumOut cfg) !! i); by simplify_eq/=.
  - intros i cl. rewrite list_lookup_fmap. intros H.
    destruct (seq 0 (NumOut cfg) !! i); by simplify_eq/=.
Qed.

Lemma lane_flow_step cfg tr s e s' :
  wf cfg s → lane_flow tr s → Step cfg s e s' → lane_flow (tr ++ [e]) s'.
Proof.
  intros Hwf [Hw Hc Ha Hu] Hs.
  destruct Hs; constructor; intros;
    rewrite ?collected_by_snoc; snoc_events; unfold uncounted, c_hold in *; simpl in *;
    rewrite ?app_nil_r; eauto.
  all: lanes; simplify_eq/=; repeat case_decide; simplify_eq/=; rewrite ?app_nil_r; eauto.
  all: repeat match goal with
       | H : workers _ !! _ = Some _ |- _ => apply Hw in H; simpl in H
       end.
  all: try (repeat match goal with
       | H : collectors _ !! _ = Some _ |- _ =>
           pose proof (Hc _ _ H); pose proof (Hu _ _ H);
           try (match goal with Hx : amounts _ !! _ = Some _ |- _ =>
                  pose proof (Ha _ _ _ H Hx) end);
           clear H
       end;
       repeat match goal with H : cl_pc _ = _ |- _ => rewrite H in * end;
       rewrite ?app_nil_r in *; rewrite ?length_app; simpl;
       first [ congruence | lia | by rewrite <-?(assoc_L (++))
             | match goal with H : _ = wrap64 _ |- _ => rewrite H end;
               rewrite ?wrap64_add_l; f_equal; lia ]).
Qed.

Lemma runs_lane_flow cfg tr s : runs cfg tr s → lane_flow tr s.
Proof.
  revert tr s. apply runs_ind; [apply lane_flow_init|].
  eauto using lane_flow_step.
Qed.

(** ** Runs, cut at an event *)

Lemma runs_app_inv cfg tr1 tr2 s :
  runs cfg (tr1 ++ tr2) s → ∃ s1, runs cfg tr1 s1 ∧ exec cfg tr2 s1 = Some s.
Proof.
  unfold runs. rewrite exec_app.
  destruct (exec cfg tr1 (init cfg)) as [s1|]; [|done]. eauto.
Qed.

Lemma runs_split cfg tr1 e tr2 s :
  runs cfg (tr1 ++ e :: tr2) s →
  ∃ s1 s2, runs cfg tr1 s1 ∧ Step cfg s1 e s2 ∧ runs cfg (tr1 ++ [e]) s2
           ∧ exec cfg tr2 s2 = Some s.
Proof.
  intros (s1 & Hr1 & Hx)%runs_app_inv. simpl in Hx.
  destruct (step cfg e s1) as [s2|] eqn:Hs; [|done].
  exists s1, s2. repeat split; [done|by eapply step_view|by eapply runs_snoc|done].
Qed.

Lemma runs_event cfg tr s e :
  runs cfg tr s → e ∈ tr →
  ∃ tr1 tr2 s1 s2, tr = tr1 ++ e :: tr2 ∧ runs cfg tr1 s1 ∧ Step cfg s1 e s2.
Proof.
  intros Hr (tr1 & tr2 & ->)%list_elem_of_split.
  apply runs_split in Hr as (s1 & s2 & ? & ? & _). by exists tr1, tr2, s1, s2.
Qed.

(** ** Channel ownership *)

Lemma Step_ownership cfg s e s' :
  Step cfg s e s' →
  (∀ c t, reads e = Some (c, t) → reader_of c t)
  ∧ (∀ c t, writes e = Some (c, t) → writer_of c t)
  ∧ (∀ c t, e = EvClose c t → t = closer_of c).
Proof.
  intros Hs. destruct Hs; repeat split; intros; simplify_eq/=; eauto.
Qed.

(** A value is sent only on an open channel; on chIn and outs[i] only
    to a receiver that is ready.  *)
Lemma Step_writes_open cfg s e s' c t :
  Step cfg s e s' → writes e = Some (c, t) →
  ∃ ch, get_chan s c = Some ch ∧ closed ch = false.
Proof. intros Hs. destruct Hs; intros; simplify_eq/=; eauto. Qed.

Lemma closes_of_snoc c tr e :
  closes_of c (tr ++ [e])
  = closes_of c tr ++ match e with
                      | EvClose c' t => if decide (c' = c) then [t] else []
                      | _ => []
                      end.
Proof.
  unfold closes_of. rewrite omap_app. f_equal.
  destruct e; simpl; try done. by case_decide.
Qed.

Lemma closing_init cfg : closing cfg [] (init cfg).
Proof.
  constructor; simpl; try done.
  - intros c ch Hc. destruct c; simpl in *; simplify_eq/=; try done.
    by apply lookup_replicate in Hc as [-> _].
  - intros [?|?]; done.
  - intros i ch [? _]%lookup_replicate. done.
  - intros i pc [-> _]%lookup_replicate [?|?]; done.
  - intros k cl. rewrite list_lookup_fmap. intros H [Hf|Hf];
      destruct (seq 0 (NumOut cfg) !! k); simplify_eq/=.
  - intros k cl. rewrite list_lookup_fmap. intros H Hf;
      destruct (seq 0 (NumOut cfg) !! k); simplify_eq/=.
Qed.

Lemma closing_step cfg tr s e s' :
  wf cfg s → closing cfg tr s → Step cfg s e s' → closing cfg (tr ++ [e]) s'.
Proof.
  intros Hwf [Hopen Hclosed Hnone Hgen Hgr Hw Hweof Hceof Hcdone Hbar] Hs.
  destruct Hs; constructor; intros;
    rewrite ?closes_of_snoc; unfold worker_finished, collector_finished in *;
    simpl in *; rewrite ?app_nil_r; rewrite ?elem_of_app, ?list_elem_of_singleton.
  all: try match goal with c : chan |- _ => destruct c; simpl in * end.
  all: lanes; simplify_eq/=; repeat case_decide; simplify_eq/=; rewrite ?app_nil_r.
  all: try (by eauto).
  all: try (left; by eauto).
  all: try (by right).
  all: try (repeat match goal with H : _ ∨ _ |- _ => destruct H end; simplify_eq/=;
            first [ done | left; by eauto | by right ]).
  all: try (left; apply Hbar; congruence).
  all: match goal with
       | |- closes_of ?c _ ++ _ = _ =>
           erewrite (Hopen c) by (simpl; first [reflexivity | eassumption]); done
       end.
Qed.

Lemma runs_closing cfg tr s : runs cfg tr s → closing cfg tr s.
Proof.
  revert tr s. apply runs_ind; [apply closing_init|].
  eauto using closing_step.
Qed.

(** ** Exact counts *)

Lemma received_le_published i tr : (length (received i tr) ≤ length (published tr))%nat.
Proof.
  induction tr as [|e tr IH] using rev_ind; [done|].
  rewrite received_snoc, published_snoc, !length_app.
  destruct e as [| | |[] ? []| | | | | | | | | | | | |]; simpl; try lia.
  case_decide; simpl; lia.
Qed.

Lemma collected_by_le_published cfg tr s i :
  runs cfg tr s → (i < NumOut cfg)%nat →
  (length (collected_by i tr) ≤ length (published tr))%nat.
Proof.
  intros Hr Hi. pose proof (runs_wf _ _ _ Hr) as Hwf.
  pose proof (runs_lane_flow _ _ _ Hr) as [Hw Hc _ _].
  destruct (lookup_lt_is_Some_2 (workers s) i) as [pc Hpc].
  { by rewrite (wf_workers_len _ _ Hwf). }
  destruct (lookup_lt_is_Some_2 (collectors s) i) as [cl Hcl].
  { by rewrite (wf_collectors_len _ _ Hwf). }
  pose proof (received_le_published i tr) as Hle.
  rewrite (Hw _ _ Hpc), (Hc _ _ Hcl), !length_app in Hle. lia.
Qed.

(** Without overflow amounts[i] is the number of values collector i has
    sent on and counted. *)
Lemma amounts_exact cfg tr s i cl a :
  no_overflow cfg → runs cfg tr s →
  collectors s !! i = Some cl → amounts s !! i = Some a →
  a = Z.of_nat (length (collected_by i tr)) - uncounted cl ∧ 0 ≤ a ≤ emit_bound cfg.
Proof.
  intros Hno Hr Hcl Ha. pose proof (runs_wf _ _ _ Hr) as Hwf.
  pose proof (runs_lane_flow _ _ _ Hr) as [_ _ Ham Hun].
  specialize (Ham _ _ _ Hcl Ha). specialize (Hun _ _ Hcl).
  assert (i < NumOut cfg)%nat as Hi.
  { rewrite <-(wf_collectors_len _ _ Hwf). by eapply lookup_lt_Some. }
  pose proof (collected_by_le_published _ _ _ _ Hr Hi).
  pose proof (published_bound _ _ _ (proj1 Hno) Hr).
  pose proof (emit_bound_int64 _ Hno).
  assert (0 ≤ uncounted cl) by (unfold uncounted; destruct (cl_pc cl); lia).
  rewrite wrap64_id in Ham by (unfold int64_range; lia). lia.
Qed.

Lemma sumZ_bounds (l : list Z) hi :
  Forall (λ x, 0 ≤ x ≤ hi) l → 0 ≤ sumZ l ≤ Z.of_nat (length l) * hi.
Proof. induction 1 as [|x l Hx Hl IH]; simpl; [lia|]. fold (sumZ l). lia. Qed.

Lemma amounts_sum_exact cfg tr s :
  no_overflow cfg → runs cfg tr s → int64_range (sumZ (amounts s)).
Proof.
  intros Hno Hr. pose proof (runs_wf _ _ _ Hr) as Hwf.
  assert (Forall (λ x, 0 ≤ x ≤ emit_bound cfg) (amounts s)) as Hall.
  { apply Forall_lookup. intros i a Ha.
    destruct (lookup_lt_is_Some_2 (collectors s) i) as [cl Hcl].
    { rewrite (wf_collectors_len _ _ Hwf), <-(wf_amounts_len _ _ Hwf).
      by eapply lookup_lt_Some. }
    by destruct (amounts_exact _ _ _ _ _ _ Hno Hr Hcl Ha). }
  apply sumZ_bounds in Hall. rewrite (wf_amounts_len _ _ Hwf) in Hall.
  destruct Hno as (_ & Hb & Hn). pose proof (emit_bound_pos cfg).
  unfold int64_range.
  assert (Z.of_nat (NumOut cfg) * emit_bound cfg < 2 ^ 31 * 2 ^ 32) by nia.
  lia.
Qed.

(** ** The accounting at the report (claim C1) *)

Lemma uncounted_done (l : list collector) :
  (∀ k cl, l !! k = Some cl → cl_pc cl = CDone) → sumZ (uncounted <$> l) = 0.
Proof.
  intros H. rewrite (sumZ_const _ _ 0); [lia|].
  intros cl (k & Hk)%list_elem_of_lookup. unfold uncounted. by rewrite (H _ _ Hk).
Qed.

(** C1.  In every run that reaches the reporting step (line 125) the
    number of values drained from chOut equals the generator's tally
    [inputCount], their sum equals [inputSum], and the per-lane counters
    [amounts] add up to [inputCount]: in 64-bit arithmetic for every
    configuration, and as plain integers when the configuration rules out
    overflow, as the constants of task.go do. *)
Theorem accounting_at_report cfg tr s :
  runs cfg tr s → m_pc s = MReport →
  count s = inputCount s
  ∧ sum s = inputSum s
  ∧ wrap64 (sumZ (amounts s)) = inputCount s
  ∧ (no_overflow cfg → sumZ (amounts s) = inputCount s).
Proof.
  intros Hr Hm.
  pose proof (runs_wf _ _ _ Hr) as Hwf.
  pose proof (runs_cascade _ _ _ Hr) as Hc.
  destruct (runs_accounting _ _ _ Hr) as [Hflow Hfifo Hcount Hsum HiS HiC Ham].
  destruct (report_drained _ _ Hwf Hc) as (Hidle & Hfl & Hbuf & Hdone); [congruence|].
  rewrite Hfl, Hfifo, Hbuf, app_nil_r in Hflow. simpl in Hflow.
  rewrite Hfifo, Hbuf, app_nil_r, (uncounted_done _ Hdone), Z.sub_0_r in Ham.
  assert (untallied_count s = 0 ∧ untallied_sum s = 0) as [Hu1 Hu2].
  { unfold untallied_count, untallied_sum, gen_idle in *. by destruct (g_pc s). }
  rewrite Hu1, Z.sub_0_r in HiC. rewrite Hu2, Z.sub_0_r in HiS.
  rewrite HiC by congruence. rewrite HiS, Hcount, Hsum, Ham, Hflow.
  repeat split; try done.
  intros Hno. rewrite <-Ham. symmetry. apply wrap64_id. by eapply amounts_sum_exact.
Qed.

Lemma accounting_at_report_witness :
  ∃ s, runs task_go demo_report s ∧ m_pc s = MReport
       ∧ count s = inputCount s ∧ sum s = inputSum s
       ∧ sumZ (amounts s) = inputCount s ∧ inputCount s = 3.
Proof.
  eexists. split; [by vm_compute|]. split; [done|].
  destruct (accounting_at_report task_go demo_report _ ltac:(by vm_compute) eq_refl)
    as (H1 & H2 & _ & H4).
  split; [exact H1|]. split; [exact H2|]. split; [exact (H4 task_go_no_overflow)|].
  reflexivity.
Defined.

(** ** The final checks (claims C2 and C10) *)

Lemma exited_stuck cfg e s o : m_pc s = MExit o → step cfg e s = None.
Proof. unfold step, running. intros ->. by rewrite andb_false_r. Qed.

Lemma subtract_all_snoc x l v : subtract_all x (l ++ [v]) = wrap64 (subtract_all x l - v).
Proof. unfold subtract_all. by rewrite foldl_app. Qed.

Lemma subtract_all_sum x l :
  int64_range x → subtract_all x l = wrap64 (x - sumZ l).
Proof.
  intros Hx. induction l as [|v l IH] using rev_ind.
  - simpl. rewrite Z.sub_0_r. by rewrite wrap64_id.
  - rewrite subtract_all_snoc, IH, sumZ_app, wrap64_sub_l. simpl. f_equal. lia.
Qed.

Lemma Sprintf_sum a b :
  Sprintf msg_sum [a; b]
  = ("Ошибка: суммы чисел не равны: " ++ dec a ++ " != " ++ dec b ++ nl)%string.
Proof. reflexivity. Qed.

Lemma Sprintf_count a b :
  Sprintf msg_count [a; b]
  = ("Ошибка: количество чисел не равно: " ++ dec a ++ " != " ++ dec b ++ nl)%string.
Proof. reflexivity. Qed.

Lemma Sprintf_amounts :
  Sprintf msg_amounts [] = ("Ошибка: разделение чисел по каналам неверное" ++ nl)%string.
Proof. reflexivity. Qed.

Lemma prefix_append (p r : string) : String.prefix p (p ++ r) = true.
Proof.
  induction p as [|a p IH]; simpl.
  - by destruct r.
  - destruct (ascii_dec a a); [done|congruence].
Qed.

Lemma contains_unfold (sub s : string) :
  contains sub s
  = String.prefix sub s
    || match s with EmptyString => false | String _ s' => contains sub s' end.
Proof. by destruct s. Qed.

Lemma contains_here (sub r : string) : contains sub (sub ++ r) = true.
Proof. by rewrite contains_unfold, prefix_append. Qed.

Lemma contains_later (sub p s : string) :
  contains sub s = true → contains sub (p ++ s) = true.
Proof.
  intros H. induction p as [|a p IH]; [done|].
  change (String a p ++ s)%string with (String a (p ++ s)).
  rewrite contains_unfold, IH. apply orb_true_r.
Qed.

Lemma shows_values_format (p m : string) a b :
  shows_values (p ++ dec a ++ m ++ dec b ++ nl) a b.
Proof.
  split.
  - apply contains_later, contains_here.
  - apply contains_later, contains_later, contains_later, contains_here.
Qed.

(** C2, as amended.  A failed sum check or count check ends the process
    with [log.Fatalf] (exit status 1) and a message that names the check
    and shows the two values that differ; a failed distribution check ends
    it with a fixed message that names the check and shows no value; when
    the three checks pass [main] returns and the exit status is 0.  After
    the checks the process makes no further step. *)
Theorem final_checks_outcome cfg s s' :
  step cfg EvValidate s = Some s' →
  let iS := inputSum s in
  let sm := sum s in
  let iC := inputCount s in
  let c := count s in
  ∃ o, m_pc s' = MExit o ∧ (∀ e, step cfg e s' = None) ∧
    ((iS ≠ sm
      ∧ o = Fatal ("Ошибка: суммы чисел не равны: " ++ dec iS ++ " != " ++ dec sm ++ nl)
      ∧ (∀ msg, o = Fatal msg → shows_values msg iS sm) ∧ exit_status o = 1)
     ∨ (iS = sm ∧ iC ≠ c
        ∧ o = Fatal ("Ошибка: количество чисел не равно: " ++ dec iC ++ " != " ++ dec c ++ nl)
        ∧ (∀ msg, o = Fatal msg → shows_values msg iC c) ∧ exit_status o = 1)
     ∨ (iS = sm ∧ iC = c ∧ subtract_all iC (amounts s) ≠ 0
        ∧ o = Fatal ("Ошибка: разделение чисел по каналам неверное" ++ nl)
        ∧ exit_status o = 1)
     ∨ (iS = sm ∧ iC = c ∧ subtract_all iC (amounts s) = 0
        ∧ o = Exit0 ∧ exit_status o = 0)).
Proof.
  intros Hs. pose proof (step_running _ _ _ _ Hs) as Hrun.
  unfold step in Hs. rewrite Hrun in Hs. simpl in Hs. unfold main in Hs.
  destruct (m_pc s) eqn:Hm; try done. injection Hs as <-.
  eexists. split; [done|]. split; [intros e; by eapply exited_stuck|].
  unfold validate. repeat case_decide; cbn [fst snd exit_status].
  - left. rewrite Sprintf_sum. split; [done|]. split; [done|]. split; [|done].
    intros msg [= <-].
    apply (shows_values_format "Ошибка: суммы чисел не равны: " " != ").
  - right; left. rewrite Sprintf_count. split; [tauto|]. split; [done|].
    split; [done|]. split; [|done].
    intros msg [= <-].
    apply (shows_values_format "Ошибка: количество чисел не равно: " " != ").
  - right; right; left. by rewrite Sprintf_amounts.
  - right; right; right. repeat split; try done.
Qed.

Lemma final_checks_outcome_witness :
  ∃ s' o, step task_go EvValidate (state_after (demo_report ++ [EvPrint])) = Some s'
          ∧ m_pc s' = MExit o ∧ exit_status o = 0.
Proof.
  eexists. 
  destruct (final_checks_outcome task_go (state_after (demo_report ++ [EvPrint])) _
              ltac:(by vm_compute)) as (o & Ho & _ & Hcases).
  exists o. split; [by vm_compute|]. split; [exact Ho|].
  destruct Hcases as [(H & _)|[(_ & H & _)|[(_ & _ & H & _)|(_ & _ & _ & _ & H)]]];
    [exfalso; apply H; reflexivity ..|exact H].
Defined.

(** The claim C2 as the specification states it fails for the
    distribution check: with the generator's count at 1 and every lane
    counter at 0 the message shows neither value. *)
Lemma distribution_message_counterexample :
  ∃ msg, validate 0 0 1 1 [0; 0; 0; 0; 0] = (Fatal msg, 1)
         ∧ subtract_all 1 [0; 0; 0; 0; 0] ≠ 0
         ∧ ¬ shows_values msg 1 (sumZ [0; 0; 0; 0; 0]).
Proof.
  eexists. split; [by vm_compute|]. split; [by vm_compute|].
  intros [H _]. by vm_compute in H.
Qed.

(** Once [main] has ended, what it ended with is what the checks gave. *)
Lemma runs_exit cfg tr s o :
  runs cfg tr s → m_pc s = MExit o →
  ∃ before, validate (inputSum s) (sum s) before (count s) (amounts s) = (o, inputCount s).
Proof.
  intros Hr. revert o. revert tr s Hr.
  apply (runs_ind cfg (λ _ s, ∀ o, m_pc s = MExit o → ∃ before,
    validate (inputSum s) (sum s) before (count s) (amounts s) = (o, inputCount s))).
  { done. }
  intros tr s e s' _ _ Hrun IH Hs o.
  apply running_true in Hrun as [_ Hne].
  destruct Hs; simpl; try (intros Hx; by destruct (Hne _ Hx)); try done.
  intros [= <-]. exists (inputCount s). apply surjective_pairing.
Qed.

(** C10.  The checks run in the order sum, count, distribution: a sum
    mismatch is the one reported whatever the counts are, a count mismatch
    is reported only when the sums agree.  The distribution check
    subtracts every lane counter from [inputCount] itself and asks for 0,
    so a run that passes the three checks ends with [inputCount] at 0. *)
Theorem checks_in_order :
  (∀ iS sm iC c am,
     (iS ≠ sm →
      validate iS sm iC c am = (Fatal (Sprintf msg_sum [iS; sm]), iC))
     ∧ (iS = sm → iC ≠ c →
        validate iS sm iC c am = (Fatal (Sprintf msg_count [iC; c]), iC))
     ∧ (iS = sm → iC = c →
        validate iS sm iC c am
        = (if decide (subtract_all iC am = 0) then Exit0 else Fatal (Sprintf msg_amounts []),
           subtract_all iC am))
     ∧ (int64_range iC → subtract_all iC am = wrap64 (iC - sumZ am))
     ∧ ((validate iS sm iC c am).1 = Exit0 → (validate iS sm iC c am).2 = 0))
  ∧ (∀ cfg tr s, runs cfg tr s → m_pc s = MExit Exit0 → inputCount s = 0).
Proof.
  split.
  - intros iS sm iC c am. unfold validate. repeat split.
    + intros H. by rewrite decide_True.
    + intros H1 H2. by rewrite decide_False, decide_True by tauto.
    + intros H1 H2. rewrite !decide_False by tauto.
      destruct (decide (subtract_all iC am = 0)) as [E|E].
      * by rewrite decide_False by tauto.
      * by rewrite decide_True.
    + apply subtract_all_sum.
    + repeat case_decide; simpl; done.
  - intros cfg tr s Hr Hm. destruct (runs_exit _ _ _ _ Hr Hm) as [before Hv].
    unfold validate in Hv. repeat case_decide; simplify_eq/=. congruence.
Qed.

Lemma checks_in_order_witness :
  validate 5 6 1 2 [0; 0; 0; 0; 0] = (Fatal (Sprintf msg_sum [5; 6]), 1)
  ∧ validate 6 6 1 2 [0; 0; 0; 0; 0] = (Fatal (Sprintf msg_count [1; 2]), 1)
  ∧ (validate 6 6 3 3 [2; 0; 0; 1; 0]).2 = 0
  ∧ inputCount (state_after demo_exit) = 0.
Proof.
  destruct checks_in_order as [Hv Hp].
  destruct (Hv 5 6 1 2 [0; 0; 0; 0; 0]) as (H1 & _).
  destruct (Hv 6 6 1 2 [0; 0; 0; 0; 0]) as (_ & H2 & _).
  destruct (Hv 6 6 3 3 [2; 0; 0; 1; 0]) as (_ & _ & _ & _ & H5).
  split; [exact (H1 ltac:(intros ?; discriminate))|].
  split; [exact (H2 eq_refl ltac:(intros ?; discriminate))|].
  split; [exact (H5 eq_refl)|].
  exact (Hp task_go demo_exit (state_after demo_exit)
           ltac:(vm_compute; reflexivity) ltac:(vm_compute; reflexivity)).
Defined.

(** ** The generator's values and tallies (claims C4 and C9) *)

Lemma lookup_naturals n i v :
  naturals n !! i = Some v ↔ v = Z.of_nat i + 1 ∧ (i < n)%nat.
Proof. unfold naturals. rewrite lookup_seqZ. lia. Qed.

(** C4.  The generator publishes 1, 2, 3, ... in this order, and what it
    does is turn after turn: publish k, call the observer with k,
    increment; at any moment its history is the turns for 1 .. n without
    the steps of the last turn still to come.  So no value is skipped or
    repeated, and the observer is called once for each published value,
    with that value, after it was published. *)
Theorem generator_sequence tr s :
  runs task_go tr s →
  let n := length (published tr) in
  published tr = naturals n
  ∧ (∀ i v, published tr !! i = Some v ↔ v = Z.of_nat i + 1 ∧ (i < n)%nat)
  ∧ gen_history tr
    = take (length (naturals n ≫= gen_round) - gen_missing s) (naturals n ≫= gen_round).
Proof.
  intros Hr n. subst n.
  pose proof (published_naturals _ _ _ task_go_no_overflow Hr) as Hp.
  split; [done|]. split.
  - intros i v. rewrite Hp at 1. apply lookup_naturals.
  - rewrite (sq_history _ _ (runs_sequence _ _ _ Hr)). by rewrite <-Hp.
Qed.

Lemma generator_sequence_witness :
  published demo_report = [1; 2; 3]
  ∧ gen_history demo_late_send
    = [Published 1; Called 1; Incremented; Published 2; Called 2; Incremented;
       Published 3].
Proof.
  split.
  - by destruct (generator_sequence demo_report (state_after demo_report)
                   ltac:(by vm_compute)) as (-> & _).
  - by destruct (generator_sequence demo_late_send (state_after demo_late_send)
                   ltac:(by vm_compute)) as (_ & _ & ->).
Defined.

Lemma tally_closed_form_gen cfg tr s :
  no_overflow cfg → runs cfg tr s →
  g_pc s = GReturn ∨ g_pc s = GDone → (∀ o, m_pc s ≠ MExit o) →
  inputCount s = Z.of_nat (length (published tr))
  ∧ inputSum s = sumZ (naturals (length (published tr)))
  ∧ inputSum s = inputCount s * (inputCount s + 1) / 2.
Proof.
  intros Hno Hr Hg Hm.
  destruct (runs_accounting _ _ _ Hr) as [_ _ _ _ HiS HiC _].
  pose proof (published_naturals _ _ _ Hno Hr) as Hp.
  pose proof (published_bound _ _ _ (proj1 Hno) Hr) as Hb.
  destruct Hno as (_ & Hlt & _).
  set (n := length (published tr)) in *.
  pose proof (sumZ_naturals n) as Hsum.
  assert (untallied_count s = 0 ∧ untallied_sum s = 0) as [Hu1 Hu2].
  { unfold untallied_count, untallied_sum. by destruct Hg as [-> | ->]. }
  rewrite Hu1, Z.sub_0_r in HiC. rewrite Hu2, Z.sub_0_r, Hp in HiS.
  assert (0 ≤ Z.of_nat n < 2 ^ 32) as Hn by lia.
  assert (0 ≤ sumZ (naturals n) < 2 ^ 63) as Hs by nia.
  rewrite wrap64_id in HiS by (unfold int64_range; lia).
  rewrite (HiC Hm), wrap64_id by (unfold int64_range; lia).
  repeat split; try done.
  rewrite HiS. apply Z.div_unique_exact; lia.
Qed.

(** C9.  From the moment the generator returns, and until the final
    checks change [inputCount], the tallies are those of 1 .. inputCount:
    inputSum = inputCount * (inputCount + 1) / 2. *)
Theorem tally_closed_form tr s :
  runs task_go tr s →
  g_pc s = GReturn ∨ g_pc s = GDone → (∀ o, m_pc s ≠ MExit o) →
  inputSum s = inputCount s * (inputCount s + 1) / 2
  ∧ inputCount s = Z.of_nat (length (published tr))
  ∧ published tr = naturals (length (published tr)).
Proof.
  intros Hr Hg Hm.
  destruct (tally_closed_form_gen _ _ _ task_go_no_overflow Hr Hg Hm) as (H1 & _ & H3).
  repeat split; try done. by eapply published_naturals, Hr; apply task_go_no_overflow.
Qed.

Lemma tally_closed_form_witness :
  inputSum (state_after demo_report) = 6 ∧ inputCount (state_after demo_report) = 3
  ∧ inputSum (state_after demo_report)
    = inputCount (state_after demo_report) * (inputCount (state_after demo_report) + 1) / 2.
Proof.
  split; [reflexivity|]. split; [reflexivity|].
  apply (tally_closed_form demo_report (state_after demo_report)).
  - by vm_compute.
  - right. reflexivity.
  - intros o. by vm_compute.
Defined.

(** ** Lanes and channels (claims C3, C5 and C8) *)

Lemma reader_of_collector c k : reader_of c (TCollector k) → c = ChOuts k.
Proof. destruct c; simpl; [by intros [? ?]|by intros [= ->]|done]. Qed.

Lemma runs_event_ownership cfg tr s e :
  runs cfg tr s → e ∈ tr →
  (∀ c t, reads e = Some (c, t) → reader_of c t)
  ∧ (∀ c t, writes e = Some (c, t) → writer_of c t)
  ∧ (∀ c t, e = EvClose c t → t = closer_of c).
Proof.
  intros Hr He. destruct (runs_event _ _ _ _ Hr He) as (? & ? & ? & ? & _ & _ & Hs).
  by eapply Step_ownership.
Qed.

(** C3.  Collector i receives from outs[i] only, and nobody else receives
    from outs[i]: no output channel has two readers.  amounts[i] is the
    number of values that went through outs[i], less the one collector i
    has in hand: in 64-bit arithmetic for every configuration, exactly when
    the configuration rules out overflow; once collector i has left its
    loop it is the number of values worker i received. *)
Theorem lanes_exclusive cfg tr s :
  runs cfg tr s →
  (∀ e j t, e ∈ tr → reads e = Some (ChOuts j, t) → t = TCollector j)
  ∧ (∀ e c k, e ∈ tr → reads e = Some (c, TCollector k) → c = ChOuts k)
  ∧ (∀ k cl, collectors s !! k = Some cl → cl_c cl = k ∧ cl_i cl = k)
  ∧ (∀ i cl a, collectors s !! i = Some cl → amounts s !! i = Some a →
       a = wrap64 (Z.of_nat (length (forwarded i tr)) - in_hand cl)
       ∧ (no_overflow cfg → a = Z.of_nat (length (forwarded i tr)) - in_hand cl)
       ∧ (collector_finished cl → in_hand cl = 0 ∧ forwarded i tr = received i tr)).
Proof.
  intros Hr. pose proof (runs_wf _ _ _ Hr) as Hwf.
  split; [|split; [|split]].
  - intros e j t He Hrd.
    destruct (runs_event_ownership _ _ _ _ Hr He) as (H & _). by apply (H _ _ Hrd).
  - intros e c k He Hrd.
    destruct (runs_event_ownership _ _ _ _ Hr He) as (H & _).
    by apply reader_of_collector, H.
  - intros k cl Hk. by destruct (wf_env _ _ Hwf _ _ Hk) as (? & ? & _).
  - intros i cl a Hcl Ha.
    destruct (runs_lane_flow _ _ _ Hr) as [Hw Hc Ham Hun].
    assert (Z.of_nat (length (forwarded i tr)) - in_hand cl
            = Z.of_nat (length (collected_by i tr)) - uncounted cl) as ->.
    { unfold in_hand. rewrite (Hc _ _ Hcl), length_app. lia. }
    split; [by eapply Ham|]. split.
    + intros Hno. by destruct (amounts_exact _ _ _ _ _ _ Hno Hr Hcl Ha).
    + intros Hfin.
      assert (c_hold cl = [] ∧ uncounted cl = 0) as [Hh Hu].
      { unfold c_hold, uncounted. by destruct Hfin as [-> | ->]. }
      split; [unfold in_hand; rewrite Hh, Hu; done|].
      destruct (lookup_lt_is_Some_2 (workers s) i) as [pc Hpc].
      { rewrite (wf_workers_len _ _ Hwf), <-(wf_collectors_len _ _ Hwf).
        by eapply lookup_lt_Some. }
      destruct (lookup_lt_is_Some_2 (outs s) i) as [ch Hch].
      { rewrite (wf_outs_len _ _ Hwf), <-(wf_collectors_len _ _ Hwf).
        by eapply lookup_lt_Some. }
      pose proof (casc_collector _ _ (runs_cascade _ _ _ Hr) _ _ _ Hcl Hfin Hch) as Hclosed.
      pose proof (wf_outs_closed _ _ Hwf _ _ Hch Hclosed) as Hdone.
      rewrite (Hw _ _ Hpc). simplify_eq/=. by rewrite app_nil_r.
Qed.

Lemma lanes_exclusive_witness :
  amounts (state_after demo_report) = [2; 0; 0; 1; 0]
  ∧ forwarded 0 demo_report = [1; 3] ∧ forwarded 3 demo_report = [2]
  ∧ (∀ a, amounts (state_after demo_report) !! 0%nat = Some a →
          a = Z.of_nat (length (forwarded 0 demo_report))).
Proof.
  split; [reflexivity|]. split; [reflexivity|]. split; [reflexivity|].
  intros a Ha.
  destruct (lanes_exclusive task_go demo_report (state_after demo_report)
              ltac:(by vm_compute)) as (_ & _ & _ & H).
  destruct (H 0%nat (Collector 0 0 0 CDone) a eq_refl Ha) as (_ & Hx & _).
  rewrite (Hx task_go_no_overflow). reflexivity.
Defined.

Lemma closes_of_app c tr1 tr2 : closes_of c (tr1 ++ tr2) = closes_of c tr1 ++ closes_of c tr2.
Proof. apply omap_app. Qed.

Lemma closes_of_close c t tr : closes_of c (EvClose c t :: tr) = t :: closes_of c tr.
Proof. unfold closes_of. simpl. by rewrite decide_True. Qed.

Lemma is_chan_get cfg s c : wf cfg s → is_chan cfg c → is_Some (get_chan s c).
Proof.
  intros Hwf. destruct c; simpl; eauto.
  intros Hi. apply lookup_lt_is_Some_2. by rewrite (wf_outs_len _ _ Hwf).
Qed.

Lemma closes_cases cfg tr s c :
  runs cfg tr s → closes_of c tr = [] ∨ closes_of c tr = [closer_of c].
Proof.
  intros Hr. destruct (runs_closing _ _ _ Hr) as [Hopen Hclosed Hnone _ _ _ _ _ _ _].
  destruct (get_chan s c) as [ch|] eqn:Hc; [|left; by apply Hnone].
  destruct (closed ch) eqn:E; [right|left]; eauto.
Qed.

(** No value is sent on a channel after it was closed. *)
Lemma no_write_after_close cfg tr1 c t tr2 s e t' :
  runs cfg (tr1 ++ EvClose c t :: tr2) s → e ∈ tr2 → writes e ≠ Some (c, t').
Proof.
  intros Hr (a & b & ->)%list_elem_of_split Hw.
  replace (tr1 ++ EvClose c t :: a ++ e :: b)
    with ((tr1 ++ EvClose c t :: a) ++ e :: b) in Hr by by rewrite <-(assoc_L (++)).
  apply runs_split in Hr as (s1 & s2 & Hr1 & Hs & _).
  destruct (Step_writes_open _ _ _ _ _ _ Hs Hw) as (ch & Hch & Hopen).
  pose proof (cls_open _ _ _ (runs_closing _ _ _ Hr1) _ _ Hch Hopen) as Hno.
  rewrite closes_of_app, closes_of_close in Hno. by destruct (closes_of c tr1).
Qed.

(** C5.  In every run a channel is closed at most once, by its own
    goroutine: chIn by the generator, outs[i] by worker i, chOut by the
    barrier goroutine; when the run reaches the report each has been
    closed exactly once.  The generator returns only on cancellation and
    then closes chIn; worker i closes outs[i] after chIn reported no more
    values; the barrier closes chOut after every collector found its lane
    closed and called wg.Done; nothing is sent on a channel after its
    close. *)
Theorem channels_closed_once cfg tr s :
  runs cfg tr s →
  (∀ c, closes_of c tr = [] ∨ closes_of c tr = [closer_of c])
  ∧ (m_pc s ≠ MRange →
     closes_of ChOut tr = [TBarrier]
     ∧ (∀ i, (i < NumOut cfg)%nat → closes_of (ChOuts i) tr = [TWorker i])
     ∧ ((0 < NumOut cfg)%nat → closes_of ChIn tr = [TGen]))
  ∧ (g_pc s = GDone → closes_of ChIn tr = [TGen])
  ∧ (g_pc s = GReturn → running s = true →
     ∃ s', step cfg (EvClose ChIn TGen) s = Some s' ∧ g_pc s' = GDone)
  ∧ (∀ i, workers s !! i = Some WDone → closes_of (ChOuts i) tr = [TWorker i])
  ∧ (∀ tr1 c t tr2, tr = tr1 ++ EvClose c t :: tr2 →
       t = closer_of c
       ∧ (c = ChIn → EvCtxDone ∈ tr1)
       ∧ (∀ i, c = ChOuts i → EvRecvClosed ChIn (TWorker i) ∈ tr1)
       ∧ (c = ChOut → ∀ k, (k < NumOut cfg)%nat →
            EvRecvClosed (ChOuts k) (TCollector k) ∈ tr1 ∧ EvWgDone k ∈ tr1)
       ∧ (∀ e t', e ∈ tr2 → writes e ≠ Some (c, t'))).
Proof.
  intros Hr. pose proof (runs_wf _ _ _ Hr) as Hwf.
  pose proof (runs_closing _ _ _ Hr) as Hcl.
  pose proof (runs_cascade _ _ _ Hr) as Hca.
  split; [intros c; by eapply closes_cases|].
  split; [|split; [|split; [|split]]].
  - intros Hm. destruct (casc_main _ _ Hca Hm) as [Hclosed _].
    destruct (closed_result_done _ _ Hwf Hca Hclosed) as (_ & _ & Houts & Hin).
    split; [by apply (cls_closed _ _ _ Hcl ChOut (chOut s))|]. split.
    + intros i Hi.
      destruct (is_chan_get cfg s (ChOuts i) Hwf Hi) as [ch Hch].
      apply (cls_closed _ _ _ Hcl (ChOuts i) ch Hch). by eapply Houts.
    + intros HN. destruct (Hin HN) as [Hc _].
      by apply (cls_closed _ _ _ Hcl ChIn (chIn s)).
  - intros Hg. apply (cls_closed _ _ _ Hcl ChIn (chIn s)); [done|].
    by apply (cls_gen _ _ _ Hcl).
  - intros Hg Hrun. unfold step. rewrite Hrun. simpl.
    unfold Generator. rewrite Hg. rewrite decide_True by done.
    unfold chan_close. simpl.
    destruct (closed (chIn s)) eqn:E.
    + apply (wf_in_closed _ _ Hwf) in E. congruence.
    + eexists. split; [done|]. done.
  - intros i Hi.
    destruct (lookup_lt_is_Some_2 (outs s) i) as [ch Hch].
    { rewrite (wf_outs_len _ _ Hwf), <-(wf_workers_len _ _ Hwf).
      by eapply lookup_lt_Some. }
    apply (cls_closed _ _ _ Hcl (ChOuts i) ch Hch).
    by eapply (cls_worker _ _ _ Hcl).
  - intros tr1 c t tr2 ->.
    destruct (runs_split _ _ _ _ _ Hr) as (s1 & s2 & Hr1 & Hs & _).
    pose proof (runs_wf _ _ _ Hr1) as Hwf1.
    pose proof (runs_closing _ _ _ Hr1) as Hcl1.
    destruct (Step_ownership _ _ _ _ Hs) as (_ & _ & Hown).
    split; [by apply Hown|].
    split; [|split; [|split]].
    + intros ->. inversion Hs; subst. apply (cls_gen_return _ _ _ Hcl1). by left.
    + intros i ->. inversion Hs; subst.
      eapply (cls_worker_eof _ _ _ Hcl1); [done|by left].
    + intros -> k Hk. inversion Hs; subst.
      destruct (lookup_lt_is_Some_2 (collectors s1) k) as [cl Hk'].
      { by rewrite (wf_collectors_len _ _ Hwf1). }
      assert (cl_pc cl = CDone) as Hdone.
      { pose proof (wf_live _ _ _ _ Hwf1 Hk') as Hl.
        rewrite (wf_barrier _ _ Hwf1) in Hl by congruence.
        unfold live in Hl. destruct (cl_pc cl); try done; lia. }
      split.
      * eapply (cls_collector_eof _ _ _ Hcl1); [done|by right].
      * by eapply (cls_collector_done _ _ _ Hcl1).
    + intros e t' He. by eapply no_write_after_close.
Qed.

Lemma channels_closed_once_witness :
  closes_of ChIn demo_report = [TGen]
  ∧ closes_of (ChOuts 2) demo_report = [TWorker 2]
  ∧ closes_of ChOut demo_report = [TBarrier].
Proof.
  destruct (channels_closed_once task_go demo_report (state_after demo_report)
              ltac:(by vm_compute)) as (_ & H & _).
  destruct H as (H1 & H2 & H3); [by vm_compute|].
  split; [apply H3; simpl; lia|]. split; [apply H2; simpl; lia|]. exact H1.
Defined.

(** chOut never holds more than NumOut values. *)
Lemma runs_result_buffer cfg tr s :
  runs cfg tr s → (length (buf (chOut s)) ≤ NumOut cfg)%nat.
Proof.
  revert tr s. apply runs_ind; [simpl; lia|].
  intros tr s e s' _ _ _ IH Hs. destruct Hs; simpl; try done.
  - rewrite length_app. simpl. lia.
  - rewrite H0 in IH. simpl in IH. lia.
Qed.

(** C8.  chOut is made with capacity NumOut, which is 5, and never holds
    more; chIn and the channels of outs have no buffer: they never hold a
    value and every send on them is a direct hand-over to a receiver.
    Only collectors send on chOut and only [main] receives from it. *)
Theorem channel_capacities cfg tr s :
  runs cfg tr s →
  NumOut task_go = 5%nat
  ∧ chan_cap cfg ChOut = NumOut cfg
  ∧ chan_cap cfg ChIn = 0%nat
  ∧ (∀ i, chan_cap cfg (ChOuts i) = 0%nat)
  ∧ (length (buf (chOut s)) ≤ NumOut cfg)%nat
  ∧ buf (chIn s) = []
  ∧ (∀ i ch, outs s !! i = Some ch → buf ch = [])
  ∧ (∀ e c t v, e ∈ tr → e = EvSend c t v ∨ e = EvRecv c t v → c = ChOut)
  ∧ (∀ e t, e ∈ tr → writes e = Some (ChOut, t) → ∃ k, t = TCollector k)
  ∧ (∀ e t, e ∈ tr → reads e = Some (ChOut, t) → t = TMain).
Proof.
  intros Hr. pose proof (runs_wf _ _ _ Hr) as Hwf.
  split; [done|]. split; [done|]. split; [done|]. split; [done|].
  split; [by eapply runs_result_buffer|].
  split; [by apply (wf_in_buf _ _ Hwf)|].
  split; [by apply (wf_outs_buf _ _ Hwf)|].
  split; [|split].
  - intros e c t v He Hx.
    destruct (runs_event _ _ _ _ Hr He) as (? & ? & ? & ? & _ & _ & Hs).
    destruct Hx as [-> | ->]; by inversion Hs.
  - intros e t He Hw. destruct (runs_event_ownership _ _ _ _ Hr He) as (_ & H & _).
    by apply (H _ _ Hw).
  - intros e t He Hrd. destruct (runs_event_ownership _ _ _ _ Hr He) as (H & _).
    by apply (H _ _ Hrd).
Qed.

Lemma channel_capacities_witness :
  chan_cap task_go ChOut = 5%nat
  ∧ (length (buf (chOut (state_after (demo_item 1 0 ++ [EvDefault])))) ≤ 5)%nat.
Proof.
  destruct (channel_capacities task_go (demo_item 1 0 ++ [EvDefault])
              (state_after (demo_item 1 0 ++ [EvDefault])) ltac:(by vm_compute))
    as (H1 & H2 & _ & _ & H5 & _).
  split; [by rewrite H2, H1|exact H5].
Defined.

(** ** The workers (claim C6) *)

Lemma clock_cons e tr : clock (e :: tr) = match e with EvTick d => d | _ => 0 end + clock tr.
Proof. unfold clock. by destruct e. Qed.

Lemma stamp_snoc t tr e : stamp t (tr ++ [e]) = stamp t tr ++ [(t + clock tr, e)].
Proof.
  revert t. induction tr as [|a tr IH]; intros t; simpl.
  - change (clock []) with 0. by rewrite Z.add_0_r.
  - rewrite IH, clock_cons. by rewrite Z.add_assoc.
Qed.

Lemma worker_history_snoc i tr e :
  worker_history i (tr ++ [e])
  = worker_history i tr ++ match worker_view i (clock tr) e with
                           | Some o => [o]
                           | None => []
                           end.
Proof.
  unfold worker_history. by rewrite stamp_snoc, omap_app, Z.add_0_l.
Qed.

Lemma worker_follows_snoc delay cin cout h o :
  worker_follows delay cin cout (h ++ [o])
  = worker_follows delay cin cout h ≫= λ p, worker_next delay cin cout p o.
Proof. unfold worker_follows. by rewrite foldl_app. Qed.

Lemma runs_clock cfg tr s : runs cfg tr s → now s = clock tr.
Proof.
  revert tr s. apply runs_ind; [done|].
  intros tr s e s' _ _ _ IH Hs. rewrite clock_snoc.
  destruct Hs; simpl; lia.
Qed.

(** C6.  Whatever the other goroutines do, what worker i does is what the
    worker of the specification does with chIn as input and outs[i] as
    output and the delay of the configuration: it reads a value, publishes
    that same value, sleeps for at least the delay, and reads again; it
    stops, closing outs[i], exactly when chIn reports no more values. *)
Theorem worker_protocol cfg tr s i pc :
  runs cfg tr s → workers s !! i = Some pc →
  worker_follows (pause cfg) ChIn (ChOuts i) (worker_history i tr) = Some (phase_of pc).
Proof.
  intros Hr. revert i pc. revert tr s Hr.
  apply (runs_ind cfg (λ tr s, ∀ i pc, workers s !! i = Some pc →
    worker_follows (pause cfg) ChIn (ChOuts i) (worker_history i tr) = Some (phase_of pc))).
  { intros i pc [-> _]%lookup_replicate. done. }
  intros tr s e s' Hr _ _ IH Hs i0 pc0.
  rewrite worker_history_snoc, <-(runs_clock _ _ _ Hr).
  destruct Hs; simpl; unfold goto_worker, goto_collector; simpl; intros Hpc;
    lanes; simplify_eq/=; repeat case_decide; simplify_eq/=;
    rewrite ?app_nil_r; eauto;
    rewrite worker_follows_snoc;
    match goal with H : workers _ !! _ = Some _ |- _ => rewrite (IH _ _ H) end;
    simpl; rewrite ?decide_True by done; done.
Qed.

Lemma worker_protocol_witness :
  worker_history 0 (demo_item 1 0)
  = [Received ChIn 1; Forwarded (ChOuts 0) 1; FellAsleep 0; WokeUp 1000000]
  ∧ worker_follows Millisecond ChIn (ChOuts 0) (worker_history 0 demo_report) = Some Stopped.
Proof.
  split; [reflexivity|].
  apply (worker_protocol task_go demo_report (state_after demo_report) 0%nat WDone).
  - by vm_compute.
  - reflexivity.
Defined.

(** ** Cancellation (claim C7) *)

Lemma checked_last_snoc tr e :
  actor e ≠ Some TGen → checked_last tr → checked_last (tr ++ [e]).
Proof.
  intros He (before & after & -> & Hall). exists before, (after ++ [e]). split.
  - by rewrite <-(assoc_L (++)).
  - apply Forall_app. split; [done|]. by constructor.
Qed.

Lemma runs_checked_last cfg tr s : runs cfg tr s → g_pc s = GSend → checked_last tr.
Proof.
  revert tr s. apply (runs_ind cfg (λ tr s, g_pc s = GSend → checked_last tr)); [done|].
  intros tr s e s' _ _ _ IH Hs.
  destruct Hs; simpl; try congruence;
    try (intros Hg; apply checked_last_snoc; [done|by apply IH]).
  intros _. exists tr, []. split; [done|constructor].
Qed.

Lemma timeout_unused cfg t e s :
  e ≠ EvCtxDone → e ≠ EvDefault → step (with_timeout t cfg) e s = step cfg e s.
Proof.
  intros H1 H2. unfold step. destruct (running s); [|done].
  by destruct e.
Qed.

Lemma late_send_completes cfg tr s i :
  runs cfg tr s → g_pc s = GSend → running s = true → workers s !! i = Some WRecv →
  ∃ s', step cfg (EvSync ChIn TGen (TWorker i) (current s)) s = Some s' ∧ g_pc s' = GCall.
Proof.
  intros Hr Hg Hrun Hw. pose proof (runs_wf _ _ _ Hr) as Hwf.
  assert (closed (chIn s) = false) as Hopen.
  { destruct (closed (chIn s)) eqn:E; [|done].
    apply (wf_in_closed _ _ Hwf) in E. congruence. }
  unfold step. rewrite Hrun. unfold can_sync. simpl.
  rewrite Hopen, (wf_in_buf _ _ Hwf). simpl.
  unfold Generator. rewrite Hg. rewrite decide_True by done. simpl.
  unfold Worker. simpl. rewrite Hw. simpl. rewrite decide_True by done.
  eexists. split; [done|]. done.
Qed.

(** C7.  The deadline is read by the generator's select and by nothing
    else: every other transition is the same whatever the deadline.  The
    select never blocks, and each publication follows a select that found
    the context not cancelled.  A generator blocked in a send leaves it
    only by completing the send, also after the deadline; workers and
    collectors leave their loops only after their input channel was
    closed. *)
Theorem cancellation_by_generator_only cfg tr s :
  runs cfg tr s →
  (∀ t e, e ≠ EvCtxDone → e ≠ EvDefault → step (with_timeout t cfg) e s = step cfg e s)
  ∧ (g_pc s = GSelect → running s = true →
     if ctx_done cfg s
     then is_Some (step cfg EvCtxDone s) ∧ step cfg EvDefault s = None
     else is_Some (step cfg EvDefault s) ∧ step cfg EvCtxDone s = None)
  ∧ (∀ tr1 a b v tr2, tr = tr1 ++ EvSync ChIn a b v :: tr2 → checked_last tr1)
  ∧ (g_pc s = GSend →
     step cfg EvCtxDone s = None
     ∧ (∀ e s', step cfg e s = Some s' →
          (g_pc s' = GSend ∧ current s' = current s)
          ∨ (g_pc s' = GCall ∧ ∃ i, e = EvSync ChIn TGen (TWorker i) (current s)))
     ∧ (running s = true → ∀ i, workers s !! i = Some WRecv →
          ∃ s', step cfg (EvSync ChIn TGen (TWorker i) (current s)) s = Some s'
                ∧ g_pc s' = GCall))
  ∧ (∀ i pc, workers s !! i = Some pc → worker_finished pc →
       closed (chIn s) = true ∧ EvRecvClosed ChIn (TWorker i) ∈ tr)
  ∧ (∀ k cl ch, collectors s !! k = Some cl → collector_finished cl →
       outs s !! k = Some ch →
       closed ch = true ∧ EvRecvClosed (ChOuts k) (TCollector k) ∈ tr).
Proof.
  intros Hr.
  pose proof (runs_cascade _ _ _ Hr) as Hca. pose proof (runs_closing _ _ _ Hr) as Hcl.
  split; [intros t e; by apply timeout_unused|].
  split; [|split; [|split; [|split]]].
  - intros Hg Hrun. unfold step. rewrite Hrun. simpl. unfold Generator. rewrite Hg.
    destruct (ctx_done cfg s); split; done || by eexists.
  - intros tr1 a b v tr2 ->.
    destruct (runs_split _ _ _ _ _ Hr) as (s1 & s2 & Hr1 & Hs & _).
    inversion Hs; subst. by eapply runs_checked_last.
  - intros Hg. split; [|split].
    + unfold step. destruct (running s); [|done]. simpl. unfold Generator. by rewrite Hg.
    + intros e s' Hs. apply (step_view _ _ _ _ _ Hr) in Hs.
      destruct Hs; simpl; try (left; split; [congruence|done]); try congruence.
      right. split; [done|]. by eexists.
    + intros Hrun i Hw. by eapply late_send_completes.
  - intros i pc Hpc Hfin. split.
    + by eapply (casc_worker _ _ Hca).
    + by eapply (cls_worker_eof _ _ _ Hcl).
  - intros k cl ch Hk Hfin Hch. split.
    + by eapply (casc_collector _ _ Hca).
    + by eapply (cls_collector_eof _ _ _ Hcl).
Qed.

Lemma cancellation_by_generator_only_witness :
  ctx_done task_go (state_after demo_blocked) = true
  ∧ g_pc (state_after demo_blocked) = GSend
  ∧ ∃ s', step task_go (EvSync ChIn TGen (TWorker 1) 3) (state_after demo_blocked) = Some s'
          ∧ g_pc s' = GCall.
Proof.
  split; [vm_compute; reflexivity|]. split; [vm_compute; reflexivity|].
  destruct (cancellation_by_generator_only task_go demo_blocked (state_after demo_blocked)
              ltac:(vm_compute; reflexivity)) as (_ & _ & _ & H & _).
  destruct (H ltac:(vm_compute; reflexivity)) as (_ & _ & Hlate).
  exact (Hlate ltac:(vm_compute; reflexivity) 1%nat ltac:(vm_compute; reflexivity)).
Defined.

(** ** Further properties of the program *)

(** X1.  No goroutine ever panics: in no run is a value sent on a closed
    channel, a channel closed twice, the WaitGroup counter made negative
    or amounts indexed out of range. *)
Theorem no_goroutine_panics cfg tr s e s' :
  runs cfg tr s → step cfg e s = Some s' → crashed s = false ∧ crashed s' = false.
Proof.
  intros Hr Hs. split.
  - apply (wf_crashed _ _ (runs_wf _ _ _ Hr)).
  - apply (wf_crashed cfg), (runs_wf _ (tr ++ [e])). by eapply runs_snoc.
Qed.

Lemma no_goroutine_panics_witness :
  crashed (state_after demo_blocked) = false
  ∧ ∀ s', step task_go (EvSync ChIn TGen (TWorker 1) 3) (state_after demo_blocked) = Some s'
          → crashed s' = false.
Proof.
  split; [vm_compute; reflexivity|]. intros s' Hs.
  exact (proj2 (no_goroutine_panics task_go demo_blocked (state_after demo_blocked) _ s'
                  ltac:(vm_compute; reflexivity) Hs)).
Defined.

Lemma elem_of_naturals n v : v ∈ naturals n ↔ 1 ≤ v ≤ Z.of_nat n.
Proof. unfold naturals. rewrite elem_of_seqZ. lia. Qed.

(** X2.  No value is lost or duplicated on the way: at any moment the
    published values are, up to order, those in flight in the lanes, those
    waiting in chOut and those [main] has read; once [main] has left its
    loop it has read each published value exactly once.  Without overflow
    no value is ever read twice and every value read is one of 1 .. n. *)
Theorem results_are_published cfg tr s :
  runs cfg tr s →
  published tr ≡ₚ in_flight s ++ results tr ++ buf (chOut s)
  ∧ (m_pc s ≠ MRange → results tr ≡ₚ published tr)
  ∧ (no_overflow cfg →
     NoDup (results tr)
     ∧ ∀ v, v ∈ results tr → 1 ≤ v ≤ Z.of_nat (length (published tr))).
Proof.
  intros Hr. destruct (runs_accounting _ _ _ Hr) as [Hflow Hfifo _ _ _ _ _].
  rewrite Hfifo in Hflow. split; [done|]. split.
  - intros Hm.
    destruct (report_drained _ _ (runs_wf _ _ _ Hr) (runs_cascade _ _ _ Hr) Hm)
      as (_ & Hfl & Hbuf & _).
    by rewrite Hflow, Hfl, Hbuf, app_nil_r.
  - intros Hno. pose proof (published_naturals _ _ _ Hno Hr) as Hp.
    assert (NoDup (published tr)) as Hnd.
    { rewrite Hp. apply NoDup_seqZ. }
    rewrite Hflow in Hnd.
    apply list.NoDup_app in Hnd as (_ & _ & Hnd).
    apply list.NoDup_app in Hnd as (Hnd & _).
    split; [done|]. intros v Hv.
    apply elem_of_naturals. rewrite <-Hp, Hflow, !elem_of_app. auto.
Qed.

Lemma results_are_published_witness :
  results demo_report ≡ₚ [1; 2; 3] ∧ NoDup (results demo_busy).
Proof.
  destruct (results_are_published task_go demo_report (state_after demo_report)
              ltac:(vm_compute; reflexivity)) as (_ & H & _).
  destruct (results_are_published task_go demo_busy (state_after demo_busy)
              ltac:(vm_compute; reflexivity)) as (_ & _ & H').
  split.
  - exact (H ltac:(vm_compute; discriminate)).
  - exact (proj1 (H' task_go_no_overflow)).
Defined.

Lemma received_sublist i tr : received i tr `sublist_of` published tr.
Proof.
  induction tr as [|e tr IH] using rev_ind; [done|].
  rewrite received_snoc, published_snoc. apply sublist_app; [done|].
  destruct e as [| | |[] ? []| | | | | | | | | | | | |]; try done;
    try apply sublist_nil_l.
  case_decide; [done|apply sublist_nil_l].
Qed.

Lemma StronglySorted_sublist {A} (R : relation A) (l1 l2 : list A) :
  l1 `sublist_of` l2 → StronglySorted R l2 → StronglySorted R l1.
Proof.
  induction 1 as [|x l1 l2 Hsub IH|x l1 l2 Hsub IH]; [done| |].
  - rewrite !StronglySorted_cons. intros [Hall Hs]. split; [|by apply IH].
    rewrite Forall_forall in Hall |- *. intros y Hy. apply Hall.
    by eapply elem_of_sublist.
  - rewrite StronglySorted_cons. intros [_ Hs]. by apply IH.
Qed.

Lemma naturals_sorted n : StronglySorted Z.lt (naturals n).
Proof.
  induction n as [|n IH]; [constructor|].
  rewrite naturals_S. apply StronglySorted_app. split; [|split; [done|]].
  - intros x1 x2 Hx1%elem_of_naturals ->%list_elem_of_singleton. lia.
  - repeat constructor.
Qed.

(** X3.  The order of the values is kept within a lane and on chOut:
    what collector i has sent on is the beginning of what went through
    outs[i], which is the beginning of what worker i received, which is
    taken in order from what the generator published; [main] reads the
    values in the order the collectors sent them.  A lane holds at most
    two values at a time, and without overflow the values of a lane are
    strictly increasing. *)
Theorem lane_order cfg tr s i :
  runs cfg tr s → (i < NumOut cfg)%nat →
  collected_by i tr `prefix_of` forwarded i tr
  ∧ forwarded i tr `prefix_of` received i tr
  ∧ received i tr `sublist_of` published tr
  ∧ results tr `prefix_of` collected tr
  ∧ (length (received i tr) ≤ length (collected_by i tr) + 2)%nat
  ∧ (no_overflow cfg → StronglySorted Z.lt (received i tr)).
Proof.
  intros Hr Hi. pose proof (runs_wf _ _ _ Hr) as Hwf.
  destruct (runs_lane_flow _ _ _ Hr) as [Hw Hc _ _].
  destruct (lookup_lt_is_Some_2 (workers s) i) as [pc Hpc].
  { by rewrite (wf_workers_len _ _ Hwf). }
  destruct (lookup_lt_is_Some_2 (collectors s) i) as [cl Hcl].
  { by rewrite (wf_collectors_len _ _ Hwf). }
  specialize (Hw _ _ Hpc). specialize (Hc _ _ Hcl).
  split; [by exists (c_hold cl)|]. split; [by exists (w_hold pc)|].
  split; [apply received_sublist|].
  split; [exists (buf (chOut s)); apply (acc_fifo _ _ (runs_accounting _ _ _ Hr))|].
  split.
  - rewrite Hw, Hc, !length_app.
    assert (length (w_hold pc) ≤ 1)%nat by (destruct pc; simpl; lia).
    assert (length (c_hold cl) ≤ 1)%nat by (unfold c_hold; destruct (cl_pc cl); simpl; lia).
    lia.
  - intros Hno. eapply StronglySorted_sublist; [apply received_sublist|].
    rewrite (published_naturals _ _ _ Hno Hr). apply naturals_sorted.
Qed.

Lemma lane_order_witness :
  received 0 demo_report = [1; 3] ∧ StronglySorted Z.lt (received 0 demo_report)
  ∧ collected_by 3 demo_busy `prefix_of` received 3 demo_busy.
Proof.
  split; [vm_compute; reflexivity|].
  destruct (lane_order task_go demo_report (state_after demo_report) 0
              ltac:(vm_compute; reflexivity) ltac:(simpl; lia)) as (_ & _ & _ & _ & _ & H).
  destruct (lane_order task_go demo_busy (state_after demo_busy) 3
              ltac:(vm_compute; reflexivity) ltac:(simpl; lia)) as (H1 & H2 & _).
  split; [exact (H task_go_no_overflow)|]. by etrans.
Defined.

(** X4.  A worker takes at most one value per pause, so the generator,
    which hands out its values before the deadline and may complete one
    more send after it, publishes at most NumOut * quota + 1 values:
    5001 for the constants of task.go. *)
Theorem publication_bound cfg tr s i :
  0 < pause cfg → runs cfg tr s → (i < NumOut cfg)%nat →
  (Z.of_nat (length (received i tr)) - 1) * pause cfg ≤ clock tr
  ∧ Z.of_nat (length (published tr)) ≤ Z.of_nat (NumOut cfg) * lane_quota cfg + 1
  ∧ (cfg = task_go → Z.of_nat (length (published tr)) ≤ 5001).
Proof.
  intros Hp Hr Hi. pose proof (runs_timing _ _ _ Hp Hr) as [Hclock Hlane _ _ Hbound].
  destruct (lookup_lt_is_Some_2 (workers s) i) as [pc Hpc].
  { by rewrite (wf_workers_len _ _ (runs_wf _ _ _ Hr)). }
  split; [|split].
  - rewrite <-Hclock. eapply on_time_before; eauto.
  - exact Hbound.
  - intros ->. exact Hbound.
Qed.

Lemma publication_bound_witness :
  (Z.of_nat (length (received 0 demo_report)) - 1) * Millisecond ≤ clock demo_report
  ∧ Z.of_nat (length (published demo_busy)) ≤ 5001.
Proof.
  destruct (publication_bound task_go demo_report (state_after demo_report) 0
              ltac:(vm_compute; reflexivity) ltac:(vm_compute; reflexivity)
              ltac:(simpl; lia))
    as (H & _).
  destruct (publication_bound task_go demo_busy (state_after demo_busy) 0
              ltac:(vm_compute; reflexivity) ltac:(vm_compute; reflexivity)
              ltac:(simpl; lia))
    as (_ & _ & H').
  split; [exact H|exact (H' eq_refl)].
Defined.

(** Once [main] has left its loop, its tallies are the generator's. *)
Lemma tallies_after_loop cfg tr s :
  runs cfg tr s → m_pc s = MReport ∨ m_pc s = MCheck →
  inputCount s = count s ∧ inputSum s = sum s
  ∧ inputCount s = wrap64 (sumZ (amounts s)).
Proof.
  intros Hr Hm.
  pose proof (runs_wf _ _ _ Hr) as Hwf.
  pose proof (runs_cascade _ _ _ Hr) as Hc.
  destruct (runs_accounting _ _ _ Hr) as [Hflow Hfifo Hcount Hsum HiS HiC Ham].
  destruct (report_drained _ _ Hwf Hc) as (Hidle & Hfl & Hbuf & Hdone).
  { destruct Hm; congruence. }
  rewrite Hfl, Hfifo, Hbuf, app_nil_r in Hflow. simpl in Hflow.
  rewrite Hfifo, Hbuf, app_nil_r, (uncounted_done _ Hdone), Z.sub_0_r in Ham.
  assert (untallied_count s = 0 ∧ untallied_sum s = 0) as [Hu1 Hu2].
  { unfold untallied_count, untallied_sum, gen_idle in *. by destruct (g_pc s). }
  rewrite Hu1, Z.sub_0_r in HiC. rewrite Hu2, Z.sub_0_r in HiS.
  rewrite HiC by (destruct Hm; congruence).
  by rewrite HiS, Hcount, Hsum, Ham, Hflow.
Qed.

Lemma validate_agree iS iC am :
  iC = wrap64 (sumZ am) → validate iS iS iC iC am = (Exit0, 0).
Proof.
  intros HiC. unfold validate.
  assert (subtract_all iC am = 0) as Hrest.
  { rewrite subtract_all_sum by (rewrite HiC; apply wrap64_range).
    rewrite HiC, wrap64_sub_l, Z.sub_diag. done. }
  rewrite Hrest. repeat case_decide; done.
Qed.

(** A run that ends has passed the three checks. *)
Lemma exit_ok cfg tr s o :
  runs cfg tr s → m_pc s = MExit o → o = Exit0 ∧ inputCount s = 0.
Proof.
  intros Hr. revert o. revert tr s Hr.
  apply (runs_ind cfg (λ _ s, ∀ o, m_pc s = MExit o → o = Exit0 ∧ inputCount s = 0));
    [done|].
  intros tr s e s' Hr _ Hrun IH Hs o.
  apply running_true in Hrun as [_ Hne].
  destruct Hs; simpl; try (intros Hx; by destruct (Hne _ Hx)); try done.
  destruct (tallies_after_loop _ _ _ Hr) as (H1 & H2 & H3); [by right|].
  rewrite <-H1, <-H2, (validate_agree _ _ _ H3). simpl. by intros [= <-].
Qed.

(** X5.  The final checks never fail: whatever the schedule, the number of
    lanes, the deadline and the pause, and even if a tally wrapped around,
    a run that ends ends with status 0 and with [inputCount] at 0; no run
    takes a path to [log.Fatalf]. *)
Theorem checks_never_fail cfg tr s o :
  runs cfg tr s → m_pc s = MExit o →
  o = Exit0 ∧ exit_status o = 0 ∧ inputCount s = 0.
Proof.
  intros Hr Hm. destruct (exit_ok _ _ _ _ Hr Hm) as [-> ?]. done.
Qed.

Lemma checks_never_fail_witness :
  m_pc (state_after demo_exit) = MExit Exit0 ∧ inputCount (state_after demo_exit) = 0.
Proof.
  destruct (m_pc (state_after demo_exit)) as [| | |o] eqn:Hm;
    try (exfalso; vm_compute in Hm; discriminate Hm).
  destruct (checks_never_fail task_go demo_exit (state_after demo_exit) o
              ltac:(vm_compute; reflexivity) Hm) as (-> & _ & H0).
  by split.
Defined.

(** X6.  The report is printed once, after the loop of [main]: nothing is
    on standard output before, and afterwards it holds the three lines of
    lines 125-127, in which the two counts are the same number and the two
    sums are the same number. *)
Theorem report_printed_once cfg tr s :
  runs cfg tr s →
  (m_pc s = MRange ∨ m_pc s = MReport → stdout s = [])
  ∧ (m_pc s ≠ MRange → m_pc s ≠ MReport →
     stdout s = [ Println_ints "Количество чисел" [count s; count s];
                  Println_ints "Сумма чисел" [sum s; sum s];
                  Println_slice "Разбивка по каналам" (amounts s) ]).
Proof.
  revert tr s.
  apply (runs_ind cfg (λ _ s,
    (m_pc s = MRange ∨ m_pc s = MReport → stdout s = [])
    ∧ (m_pc s ≠ MRange → m_pc s ≠ MReport →
       stdout s = [ Println_ints "Количество чисел" [count s; count s];
                    Println_ints "Сумма чисел" [sum s; sum s];
                    Println_slice "Разбивка по каналам" (amounts s) ]))).
  { split; [done|]. intros H; by destruct H. }
  intros tr s e s' Hr Hwf Hrun [IH1 IH2] Hs.
  destruct Hs; simpl; try (split; assumption).
  - (* amounts[i]++ *)
    split; [done|]. intros Hm1 Hm2.
    destruct (report_drained _ _ Hwf (runs_cascade _ _ _ Hr) Hm1) as (_ & _ & _ & Hdone).
    match goal with Hc : collectors s !! _ = Some _ |- _ => apply Hdone in Hc end.
    congruence.
  - (* a value read by main *)
    split; [|intros Hm; by destruct Hm]. intros _. apply IH1. by left.
  - (* the end of the loop *)
    split; [|intros _ Hm; by destruct Hm]. intros _. apply IH1. by left.
  - (* the report *)
    split; [intros [?|?]; done|]. intros _ _.
    rewrite IH1 by (by right). unfold report.
    destruct (tallies_after_loop _ _ _ Hr) as (-> & -> & _); [by left|done].
  - (* the checks *)
    split; [intros [?|?]; done|]. intros _ _. apply IH2; congruence.
Qed.

Lemma report_printed_once_witness :
  stdout (state_after demo_report) = []
  ∧ stdout (state_after demo_exit)
    = [ Println_ints "Количество чисел" [3; 3];
        Println_ints "Сумма чисел" [6; 6];
        Println_slice "Разбивка по каналам" [2; 0; 0; 1; 0] ].
Proof.
  split.
  - apply (report_printed_once task_go demo_report (state_after demo_report)
             ltac:(vm_compute; reflexivity)).
    right. vm_compute. reflexivity.
  - destruct (report_printed_once task_go demo_exit (state_after demo_exit)
                ltac:(vm_compute; reflexivity)) as (_ & H).
    rewrite H; [vm_compute; reflexivity| |]; intros Hm; vm_compute in Hm; discriminate Hm.
Defined.

(** The generator returns only after the deadline. *)
Lemma gen_returned_late cfg tr s :
  runs cfg tr s → g_pc s = GReturn ∨ g_pc s = GDone → timeout cfg ≤ now s.
Proof.
  revert tr s.
  apply (runs_ind cfg (λ _ s, g_pc s = GReturn ∨ g_pc s = GDone → timeout cfg ≤ now s)).
  { intros [?|?]; done. }
  intros tr s e s' _ _ _ IH Hs.
  destruct Hs; simpl; try assumption; try (intros [?|?]; done); try lia.
  - intros Hg. apply IH in Hg. lia.
  - intros _. apply IH. by left.
Qed.

(** X7.  No goroutine is left behind: when [main] leaves its loop the
    barrier goroutine has closed chOut, nothing is left in it, every
    worker and every collector has returned, every outs[i] is closed and
    the WaitGroup counter is 0; with at least one lane the generator has
    returned too, chIn is closed and the deadline has passed. *)
Theorem all_goroutines_returned cfg tr s :
  runs cfg tr s → m_pc s ≠ MRange →
  barrier s = BDone ∧ closed (chOut s) = true ∧ buf (chOut s) = [] ∧ wg s = 0
  ∧ (∀ i pc, workers s !! i = Some pc → pc = WDone)
  ∧ (∀ k cl, collectors s !! k = Some cl → cl_pc cl = CDone)
  ∧ (∀ i ch, outs s !! i = Some ch → closed ch = true)
  ∧ ((0 < NumOut cfg)%nat →
     g_pc s = GDone ∧ closed (chIn s) = true ∧ timeout cfg ≤ now s).
Proof.
  intros Hr Hm. pose proof (runs_wf _ _ _ Hr) as Hwf.
  pose proof (runs_cascade _ _ _ Hr) as Hc.
  destruct (casc_main _ _ Hc Hm) as [Hcl Hbuf].
  destruct (closed_result_done _ _ Hwf Hc Hcl) as (Hcs & Hws & Hos & Hg).
  pose proof (wf_out_closed _ _ Hwf Hcl) as Hb.
  split; [done|]. split; [done|]. split; [done|].
  split; [apply (wf_barrier _ _ Hwf); congruence|].
  split; [done|]. split; [done|]. split; [done|].
  intros Hn. destruct (Hg Hn) as [? Hgd]. split; [done|]. split; [done|].
  eapply gen_returned_late; eauto.
Qed.

Lemma all_goroutines_returned_witness :
  g_pc (state_after demo_report) = GDone ∧ wg (state_after demo_report) = 0
  ∧ Second ≤ now (state_after demo_report).
Proof.
  destruct (all_goroutines_returned task_go demo_report (state_after demo_report)
              ltac:(vm_compute; reflexivity))
    as (_ & _ & _ & Hwg & _ & _ & _ & H).
  { intros Hm. vm_compute in Hm. discriminate Hm. }
  destruct (H ltac:(simpl; lia)) as (Hg & _ & Ht).
  split; [exact Hg|]. split; [exact Hwg|exact Ht].
Defined.

Lemma wg_dones_snoc tr e :
  wg_dones (tr ++ [e])
  = wg_dones tr ++ match e with EvWgDone k => [k] | _ => [] end.
Proof. unfold wg_dones. rewrite omap_app. f_equal. by destruct e. Qed.

(** A collector that has called [wg.Done()] is at its end. *)
Lemma wg_dones_done cfg tr s k :
  runs cfg tr s → k ∈ wg_dones tr →
  ∃ cl, collectors s !! k = Some cl ∧ cl_pc cl = CDone.
Proof.
  intros Hr. revert k. revert tr s Hr.
  apply (runs_ind cfg (λ tr s, ∀ k, k ∈ wg_dones tr →
           ∃ cl, collectors s !! k = Some cl ∧ cl_pc cl = CDone)).
  { intros k Hk. by apply elem_of_nil in Hk. }
  intros tr s e s' _ _ _ IH Hs k. rewrite wg_dones_snoc.
  destruct Hs; simpl; rewrite ?app_nil_r; try (by apply IH).
  all: try (intros (cl' & Hcl' & Hpc')%IH;
            destruct (decide (k = k0)) as [->|Hne];
            [congruence|by rewrite list_lookup_insert_ne by done; eauto]).
  - (* a value handed to collector i *)
    intros (cl' & Hcl' & Hpc')%IH.
    destruct (decide (k = i)) as [->|Hne];
      [congruence|by rewrite list_lookup_insert_ne by done; eauto].
  - (* wg.Done() *)
    intros [Hk| ->%list_elem_of_singleton]%elem_of_app.
    + apply IH in Hk as (cl' & Hcl' & Hpc').
      destruct (decide (k = k0)) as [->|Hne];
        [congruence|by rewrite list_lookup_insert_ne by done; eauto].
    + rewrite list_lookup_insert_eq by (by eapply lookup_lt_Some). eauto.
Qed.

Lemma wg_counter cfg tr s :
  runs cfg tr s → wg s = Z.of_nat (NumOut cfg) - Z.of_nat (length (wg_dones tr)).
Proof.
  revert tr s.
  apply (runs_ind cfg (λ tr s,
           wg s = Z.of_nat (NumOut cfg) - Z.of_nat (length (wg_dones tr)))).
  { simpl. lia. }
  intros tr s e s' _ _ _ IH Hs. rewrite wg_dones_snoc.
  destruct Hs; simpl; rewrite ?app_nil_r; try done.
  rewrite length_app. simpl. lia.
Qed.

Lemma wg_dones_NoDup cfg tr s : runs cfg tr s → NoDup (wg_dones tr).
Proof.
  revert tr s. apply (runs_ind cfg (λ tr _, NoDup (wg_dones tr))); [constructor|].
  intros tr s e s' Hr _ _ IH Hs. rewrite wg_dones_snoc.
  destruct Hs; simpl; rewrite ?app_nil_r; try done.
  apply list.NoDup_app. split; [done|]. split; [|apply NoDup_singleton].
  intros j (cl' & Hcl' & Hpc')%(wg_dones_done _ _ _ _ Hr) ->%list_elem_of_singleton.
  congruence.
Qed.

(** Collectors at their end do not count as live. *)
Lemma live_count (l : list collector) (d : list nat) a :
  NoDup d →
  (∀ j, j ∈ d → ∃ c, l !! (j - a)%nat = Some c ∧ cl_pc c = CDone ∧ (a ≤ j)%nat) →
  sumZ (live <$> l) + Z.of_nat (length d) ≤ Z.of_nat (length l).
Proof.
  revert d a. induction l as [|c l IH]; intros d a Hnd Hd.
  - destruct d as [|j d]; [simpl; lia|].
    destruct (Hd j) as (c & Hc & _); [left|]. by rewrite lookup_nil in Hc.
  - change (live c + sumZ (live <$> l) + Z.of_nat (length d) ≤ Z.of_nat (S (length l))).
    rewrite Nat2Z.inj_succ.
    assert (0 ≤ live c ≤ 1) as Hc by (unfold live; destruct (cl_pc c); lia).
    destruct (decide (a ∈ d)) as [Ha|Ha].
    + destruct (Hd a Ha) as (c' & Hc' & Hpc' & _).
      rewrite Nat.sub_diag in Hc'. simplify_eq/=.
      assert (live c' = 0) as Hl by (unfold live; by rewrite Hpc').
      apply elem_of_Permutation in Ha as (d' & Hperm).
      rewrite Hperm in Hnd. apply NoDup_cons in Hnd as [Hna Hnd'].
      specialize (IH d' (S a) Hnd').
      rewrite Hperm. change (length (a :: d')) with (S (length d')).
      rewrite Nat2Z.inj_succ.
      assert (sumZ (live <$> l) + Z.of_nat (length d') ≤ Z.of_nat (length l)); [|lia].
      apply IH. intros j Hj.
      destruct (Hd j) as (c'' & Hc'' & Hpc'' & Hle); [rewrite Hperm; by right|].
      assert (j ≠ a) by (intros ->; done).
      replace (j - a)%nat with (S (j - S a)) in Hc'' by lia.
      exists c''. repeat split; [done|done|lia].
    + specialize (IH d (S a) Hnd).
      assert (sumZ (live <$> l) + Z.of_nat (length d) ≤ Z.of_nat (length l)); [|lia].
      apply IH. intros j Hj. destruct (Hd j Hj) as (c'' & Hc'' & Hpc'' & Hle).
      assert (j ≠ a) by (intros ->; done).
      replace (j - a)%nat with (S (j - S a)) in Hc'' by lia.
      exists c''. repeat split; [done|done|lia].
Qed.

(** X8.  The WaitGroup counter is the number of collectors that have not
    yet called [wg.Done()]: it starts at NumOut, each collector calls Done
    at most once and does so as its last step, the counter never goes
    below 0, and [wg.Wait()] returns, and chOut is closed, only when all
    NumOut collectors have called Done. *)
Theorem waitgroup_counts_collectors cfg tr s :
  runs cfg tr s →
  wg s = Z.of_nat (NumOut cfg) - Z.of_nat (length (wg_dones tr))
  ∧ 0 ≤ wg s
  ∧ NoDup (wg_dones tr)
  ∧ (∀ k, k ∈ wg_dones tr ↔ ∃ cl, collectors s !! k = Some cl ∧ cl_pc cl = CDone)
  ∧ (barrier s ≠ BWait ∨ closed (chOut s) = true → wg_dones tr ≡ₚ seq 0 (NumOut cfg)).
Proof.
  intros Hr. pose proof (runs_wf _ _ _ Hr) as Hwf.
  pose proof (wg_counter _ _ _ Hr) as Hwg.
  pose proof (wg_dones_NoDup _ _ _ Hr) as Hnd.
  assert (∀ k, k ∈ wg_dones tr → k ∈ seq 0 (NumOut cfg)) as Hin.
  { intros k (cl & Hcl%lookup_lt_Some & _)%(wg_dones_done _ _ _ _ Hr).
    rewrite (wf_collectors_len _ _ Hwf) in Hcl. apply elem_of_seq. lia. }
  assert (wg_dones tr ⊆+ seq 0 (NumOut cfg)) as Hsub by by apply NoDup_submseteq.
  assert (wg s = 0 → wg_dones tr ≡ₚ seq 0 (NumOut cfg)) as Hall.
  { intros H0. apply submseteq_length_Permutation; [done|].
    rewrite length_seq. lia. }
  split; [done|]. split.
  { apply submseteq_length in Hsub. rewrite length_seq in Hsub. lia. }
  split; [done|]. split.
  - intros k. split; [by apply (wg_dones_done _ _ _ _ Hr)|].
    intros (cl & Hcl & Hpc).
    destruct (decide (k ∈ wg_dones tr)) as [|Hk]; [done|exfalso].
    (* a collector at its end that is not counted: the counter would be
       larger than the number of collectors still live *)
    pose proof (wf_wg _ _ Hwf) as Hlive.
    pose proof (live_count (collectors s) (k :: wg_dones tr) 0%nat) as Hcount.
    rewrite (wf_collectors_len _ _ Hwf) in Hcount.
    change (length (k :: wg_dones tr)) with (S (length (wg_dones tr))) in Hcount.
    rewrite Nat2Z.inj_succ in Hcount.
    assert (sumZ (live <$> collectors s) + Z.succ (Z.of_nat (length (wg_dones tr)))
            ≤ Z.of_nat (NumOut cfg)); [|lia].
    apply Hcount; [by constructor|].
    intros j [-> |Hj]%elem_of_cons; rewrite Nat.sub_0_r.
    + exists cl. repeat split; [done|done|lia].
    + destruct (wg_dones_done _ _ _ _ Hr Hj) as (c & ? & ?).
      exists c. repeat split; [done|done|lia].
  - intros [Hb|Hc]; apply Hall.
    + by apply (wf_barrier _ _ Hwf).
    + apply (wf_barrier _ _ Hwf). rewrite (wf_out_closed _ _ Hwf Hc). done.
Qed.

Lemma waitgroup_counts_collectors_witness :
  wg (state_after demo_busy) = 5 ∧ wg_dones demo_report ≡ₚ [0; 1; 2; 3; 4]%nat.
Proof.
  destruct (waitgroup_counts_collectors task_go demo_busy (state_after demo_busy)
              ltac:(vm_compute; reflexivity)) as (H & _).
  destruct (waitgroup_counts_collectors task_go demo_report (state_after demo_report)
              ltac:(vm_compute; reflexivity)) as (_ & _ & _ & _ & H').
  split; [rewrite H; vm_compute; reflexivity|].
  apply H'. right. vm_compute. reflexivity.
Defined.

(** ** Termination *)

Lemma Step_step cfg s e s' :
  wf cfg s → running s = true → Step cfg s e s' → step cfg e s = Some s'.
Proof.
  intros Hwf Hrun Hs. unfold step. rewrite Hrun.
  pose proof (wf_in_buf _ _ Hwf) as Hin.
  destruct Hs;
    repeat match goal with
    | H : collectors s !! _ = Some _ |- _ =>
        destruct (wf_env _ _ Hwf _ _ H) as (? & ? & _); revert H
    | H : outs s !! _ = Some _ |- _ => pose proof (wf_outs_buf _ _ Hwf _ _ H); revert H
    end; intros; simpl;
    unfold Generator, Worker, collect, wait_and_close, main, ctx_done, can_sync,
      chan_send, chan_recv, chan_recv_closed, chan_close, get_chan, put_chan,
      incr_amount, wg_done, goto_worker, goto_collector; simpl;
    repeat match goal with
    | H : ?x = _ |- context [?x] => rewrite H; simpl
    end.
  all: repeat first [ rewrite decide_True by (repeat split; try done; lia)
                    | rewrite decide_False by (try done; lia)
                    | rewrite bool_decide_true by (try done; lia)
                    | rewrite bool_decide_false by (try done; lia)
                    | match goal with
                      | H : ?x = _ |- context [?x] => rewrite H; simpl
                      end ]; simpl; try done.
  all: match goal with
       | H : _ !! _ = Some ?x |- context [mbind _ ?o] =>
           let E := fresh in assert (o = Some x) as E by exact H; rewrite E; clear E
       end; simpl;
       repeat match goal with H : ?x = _ |- context [?x] => rewrite H; simpl end.
  all: repeat case_match; simplify_eq/=; try done.
  all: match goal with H : ¬ _ |- _ => by destruct H end.
Qed.

Lemma barrier_done_closed cfg tr s :
  runs cfg tr s → barrier s = BDone → closed (chOut s) = true.
Proof.
  revert tr s.
  apply (runs_ind cfg (λ _ s, barrier s = BDone → closed (chOut s) = true)); [done|].
  intros tr s e s' _ _ _ IH Hs. destruct Hs; simpl; try done.
Qed.

Lemma sumZ_fmap_nonneg {A} (f : A → Z) (l : list A) :
  (∀ x, 0 ≤ f x) → 0 ≤ sumZ (f <$> l).
Proof.
  intros Hf. induction l as [|x l IH]; [done|].
  change (sumZ (f <$> x :: l)) with (f x + sumZ (f <$> l)). specialize (Hf x). lia.
Qed.

Lemma sumZ_pos_lookup {A} (f : A → Z) (l : list A) :
  sumZ (f <$> l) ≠ 0 → ∃ k x, l !! k = Some x ∧ f x ≠ 0.
Proof.
  induction l as [|x l IH]; [done|].
  change (sumZ (f <$> x :: l)) with (f x + sumZ (f <$> l)). intros H.
  destruct (decide (f x = 0)) as [H0|H0].
  - destruct IH as (k & y & ? & ?); [lia|]. by exists (S k), y.
  - by exists 0%nat, x.
Qed.

Lemma todo_nonneg s : 0 ≤ todo s.
Proof.
  unfold todo.
  assert (0 ≤ gen_todo (g_pc s)) by (destruct (g_pc s); simpl; lia).
  assert (0 ≤ barrier_todo (barrier s)) by (destruct (barrier s); simpl; lia).
  assert (0 ≤ main_todo (m_pc s)) by (destruct (m_pc s); simpl; lia).
  assert (0 ≤ sumZ (worker_todo <$> workers s)).
  { apply sumZ_fmap_nonneg. intros []; simpl; lia. }
  assert (0 ≤ sumZ (collector_todo <$> collectors s)).
  { apply sumZ_fmap_nonneg. intros cl. unfold collector_todo. destruct (cl_pc cl); lia. }
  lia.
Qed.

Lemma fire cfg s e s' :
  wf cfg s → running s = true → Step cfg s e s' → todo s' < todo s → now s ≤ now s' →
  ∃ tr' s'', exec cfg tr' s = Some s'' ∧ todo s'' < todo s ∧ now s ≤ now s''.
Proof.
  intros Hwf Hrun Hs Ht Hn. exists [e], s'. simpl.
  by rewrite (Step_step _ _ _ _ Hwf Hrun Hs).
Qed.

Ltac less :=
  unfold todo, goto_worker, goto_collector, tally_result; simpl;
  repeat (erewrite sumZ_fmap_insert by eassumption); simpl;
  unfold collector_todo; simpl;
  repeat match goal with
  | H : g_pc _ = _ |- _ => rewrite H
  | H : m_pc _ = _ |- _ => rewrite H
  | H : barrier _ = _ |- _ => rewrite H
  | H : cl_pc _ = _ |- _ => rewrite H
  | H : buf _ = _ |- _ => rewrite H
  end; simpl; rewrite ?length_app; simpl; lia.

Ltac fire_with c := eapply fire; [done|done|eapply c; eauto|less|simpl; lia].

(** After the deadline a lane whose collector has not finished can move. *)
Lemma lane_progress cfg tr s k cl :
  runs cfg tr s → running s = true → timeout cfg ≤ now s →
  collectors s !! k = Some cl → cl_pc cl ≠ CDone →
  closed (chOut s) = false → buf (chOut s) = [] →
  ∃ tr' s', exec cfg tr' s = Some s' ∧ todo s' < todo s ∧ now s ≤ now s'.
Proof.
  intros Hr Hrun Hlate Hcl Hpc Hopen Hbuf.
  pose proof (runs_wf _ _ _ Hr) as Hwf.
  pose proof (runs_closing _ _ _ Hr) as Hcls.
  pose proof (lookup_lt_Some _ _ _ Hcl) as Hk.
  rewrite (wf_collectors_len _ _ Hwf) in Hk.
  destruct (lookup_lt_is_Some_2 (outs s) k) as [ch Hch].
  { by rewrite (wf_outs_len _ _ Hwf). }
  destruct (lookup_lt_is_Some_2 (workers s) k) as [pc Hw].
  { by rewrite (wf_workers_len _ _ Hwf). }
  destruct (lookup_lt_is_Some_2 (amounts s) k) as [a Ha].
  { by rewrite (wf_amounts_len _ _ Hwf). }
  destruct (cl_pc cl) eqn:Hcpc; [| | | |done].
  - (* the collector waits for outs[k] *)
    destruct (closed ch) eqn:Hchc; [fire_with step_collector_eof|].
    destruct pc.
    + (* the worker waits for chIn *)
      destruct (closed (chIn s)) eqn:Hin; [fire_with step_worker_eof|].
      destruct (g_pc s) eqn:Hg.
      * fire_with step_ctx_done.
      * fire_with step_publish.
      * fire_with step_call.
      * fire_with step_add_sum.
      * fire_with step_add_count.
      * fire_with step_next.
      * fire_with step_close_in.
      * apply (cls_gen _ _ _ Hcls) in Hg. congruence.
    + fire_with step_forward.
    + fire_with step_sleep.
    + (* asleep: the clock ticks until the worker wakes up *)
      destruct (decide (wake ≤ now s)) as [Hwake|Hwake]; [fire_with step_wake|].
      assert (Step cfg s (EvTick (wake - now s)) (set_now (now s + (wake - now s)) s))
        as Htick by (constructor; lia).
      pose proof (wf_step _ _ _ _ Hwf Htick) as Hwf'.
      set (s1 := set_now (now s + (wake - now s)) s) in *.
      assert (Step cfg s1 (EvWake k) (goto_worker k WRecv s1)) as Hwk.
      { eapply step_wake; [exact Hw|]. simpl. lia. }
      exists [EvTick (wake - now s); EvWake k], (goto_worker k WRecv s1). simpl.
      rewrite (Step_step _ _ _ _ Hwf Hrun Htick). simpl. fold s1.
      rewrite (Step_step _ _ _ _ Hwf' Hrun Hwk).
      split; [done|]. split; [|simpl; lia].
      unfold todo, goto_worker, s1. simpl.
      erewrite sumZ_fmap_insert by eassumption. simpl. lia.
    + fire_with step_close_out.
    + pose proof (cls_worker _ _ _ Hcls _ _ Hw Hch). congruence.
  - fire_with step_collect. rewrite Hbuf. simpl. lia.
  - fire_with step_count.
  - fire_with step_wg_done. pose proof (wf_live _ _ _ _ Hwf Hcl) as Hl.
    unfold live in Hl. rewrite Hcpc in Hl. lia.
Qed.

(** After the deadline the program is never stuck: while [main] has not
    ended some goroutine can move, and what is left to do gets less. *)
Lemma progress cfg tr s :
  runs cfg tr s → running s = true → timeout cfg ≤ now s →
  ∃ tr' s', exec cfg tr' s = Some s' ∧ todo s' < todo s ∧ now s ≤ now s'.
Proof.
  intros Hr Hrun Hlate.
  pose proof (runs_wf _ _ _ Hr) as Hwf.
  destruct (m_pc s) eqn:Hm.
  - destruct (buf (chOut s)) as [|v rest] eqn:Hbuf; [|fire_with step_result].
    destruct (closed (chOut s)) eqn:Hcl; [fire_with step_results_eof|].
    destruct (barrier s) eqn:Hb.
    + destruct (decide (wg s = 0)) as [Hwg|Hwg]; [fire_with step_wg_wait|].
      rewrite (wf_wg _ _ Hwf) in Hwg.
      apply sumZ_pos_lookup in Hwg as (k & cl & Hk & Hlive).
      eapply lane_progress; eauto.
      intros Hd. unfold live in Hlive. by rewrite Hd in Hlive.
    + fire_with step_close_result.
    + apply (barrier_done_closed _ _ _ Hr) in Hb. congruence.
  - fire_with step_print.
  - fire_with step_validate.
  - apply running_true in Hrun as [_ Hne]. by destruct (Hne o).
Qed.

Lemma runs_exec cfg tr tr' s s' :
  runs cfg tr s → exec cfg tr' s = Some s' → runs cfg (tr ++ tr') s'.
Proof. unfold runs. intros H1 H2. by rewrite exec_app, H1. Qed.

Lemma finish_late cfg n tr s :
  runs cfg tr s → timeout cfg ≤ now s → todo s ≤ Z.of_nat n →
  ∃ tr' s' o, runs cfg (tr ++ tr') s' ∧ m_pc s' = MExit o.
Proof.
  revert tr s. induction n as [|n IH]; intros tr s Hr Hlate Hn.
  all: destruct (running s) eqn:Hrun.
  all: try (exists [], s; rewrite app_nil_r;
            pose proof (wf_crashed _ _ (runs_wf _ _ _ Hr)) as Hc;
            unfold running in Hrun; rewrite Hc in Hrun;
            destruct (m_pc s) as [| | |o] eqn:Hm; try done; by exists o).
  all: destruct (progress _ _ _ Hr Hrun Hlate) as (tr1 & s1 & Hx & Hless & Hnow).
  - pose proof (todo_nonneg s1). lia.
  - destruct (IH (tr ++ tr1) s1) as (tr2 & s2 & o & Hr2 & Ho);
      [by eapply runs_exec|lia|lia|].
    exists (tr1 ++ tr2), s2, o. by rewrite (assoc_L (++)).
Qed.

(** X9.  The program cannot hang: from every state a run can be in there
    is a way on to the end of [main], and the end is the normal one.  So
    no schedule leads to a deadlock, whatever the number of lanes, the
    deadline and the pause are. *)
Theorem never_deadlocked cfg tr s :
  runs cfg tr s →
  ∃ tr' s', runs cfg (tr ++ tr') s' ∧ m_pc s' = MExit Exit0 ∧ inputCount s' = 0.
Proof.
  intros Hr. pose proof (runs_wf _ _ _ Hr) as Hwf.
  assert (∃ tr1 s1, runs cfg (tr ++ tr1) s1
                    ∧ (running s1 = true → timeout cfg ≤ now s1))
    as (tr1 & s1 & Hr1 & Hlate).
  { destruct (decide (timeout cfg ≤ now s)) as [?|Hearly].
    { exists [], s. by rewrite app_nil_r. }
    destruct (running s) eqn:Hrun;
      [|exists [], s; rewrite app_nil_r; split; [done|congruence]].
    assert (Step cfg s (EvTick (timeout cfg - now s))
              (set_now (now s + (timeout cfg - now s)) s)) as Htick
      by (constructor; lia).
    eexists [_], _. split.
    - eapply runs_snoc; [done|]. by apply Step_step.
    - simpl. lia. }
  destruct (running s1) eqn:Hrun1.
  - destruct (finish_late cfg (Z.to_nat (todo s1)) _ _ Hr1 (Hlate eq_refl))
      as (tr2 & s2 & o & Hr2 & Ho); [lia|].
    destruct (exit_ok _ _ _ _ Hr2 Ho) as [-> ?].
    exists (tr1 ++ tr2), s2. by rewrite (assoc_L (++)).
  - pose proof (wf_crashed _ _ (runs_wf _ _ _ Hr1)) as Hc.
    unfold running in Hrun1. rewrite Hc in Hrun1.
    destruct (m_pc s1) as [| | |o] eqn:Hm; try done.
    destruct (exit_ok _ _ _ _ Hr1 Hm) as [-> ?]. by exists tr1, s1.
Qed.

Lemma never_deadlocked_witness :
  ∃ tr' s', runs task_go (demo_blocked ++ tr') s' ∧ m_pc s' = MExit Exit0.
Proof.
  destruct (never_deadlocked task_go demo_blocked (state_after demo_blocked)
              ltac:(vm_compute; reflexivity)) as (tr' & s' & Hr & Hm & _).
  by exists tr', s'.
Defined.

Lemma Step_less cfg s e s' :
  Step cfg s e s' → timeout cfg ≤ now s →
  now s ≤ now s' ∧ todo s' + (if decide (is_Some (actor e)) then 1 else 0) ≤ todo s.
Proof.
  intros Hs Hlate. split; [destruct Hs; simpl; lia|].
  destruct Hs; simpl; try lia; less.
Qed.

(** X10.  After the deadline the program only winds down: every statement
    a goroutine executes makes what is left to do less, so from a state
    after the deadline no schedule executes more than [todo] statements,
    whatever the clock does in between. *)
Theorem winds_down cfg tr s tr' s' :
  runs cfg tr s → timeout cfg ≤ now s → exec cfg tr' s = Some s' →
  Z.of_nat (statements tr') ≤ todo s - todo s'
  ∧ Z.of_nat (statements tr') ≤ todo s
  ∧ timeout cfg ≤ now s'.
Proof.
  intros Hr Hlate Hx.
  assert (Z.of_nat (statements tr') ≤ todo s - todo s' ∧ timeout cfg ≤ now s')
    as [H1 H2]; [|pose proof (todo_nonneg s'); split; [done|split; [lia|done]]].
  revert tr s Hr Hlate Hx. induction tr' as [|e tr' IH]; intros tr s Hr Hlate Hx.
  { simplify_eq/=. unfold statements. simpl. lia. }
  simpl in Hx. destruct (step cfg e s) as [s1|] eqn:Hs; [|done]. simpl in Hx.
  destruct (Step_less _ _ _ _ (step_view _ _ _ _ _ Hr Hs) Hlate) as [Hnow Hless].
  destruct (IH (tr ++ [e]) s1) as [IH1 IH2]; [by eapply runs_snoc|lia|done|].
  split; [|done]. unfold statements in *. rewrite filter_cons.
  destruct (decide (is_Some (actor e))); simpl; lia.
Qed.

Lemma winds_down_witness :
  Z.of_nat (statements demo_lane_stops) ≤ todo (state_after demo_cancelled).
Proof.
  refine (proj1 (proj2 (winds_down task_go demo_cancelled (state_after demo_cancelled)
            demo_lane_stops (state_after (demo_cancelled ++ demo_lane_stops)) _ _ _))).
  - vm_compute. reflexivity.
  - vm_compute. discriminate.
  - vm_compute. reflexivity.
Defined.
